(** * GridCal interior point solver (GridCalEngine/Utils/IPS/ips.py)

    A shallow embedding of [step_calculation], [split], [calc_error],
    [IpsFunctionReturn.compare] and [interior_point_solver], the properties
    of the solver that the specification states, and further properties of
    these functions.

    The scalar arithmetic is a parameter.  The Python program computes on
    IEEE binary64 numbers: that is the [float] instance, built on Rocq's
    primitive floats.  The rationals serve only to say how accurate a
    rounding of binary64 is. *)

From Stdlib Require Import ZArith List Bool Lia Lqa QArith Qabs Qpower.
From Stdlib Require Import Floats.
From stdpp Require Import base option list strings gmap.

Set Warnings "-inexact-float".
Set Default Proof Using "Type".

(** ** Exceptions and fallible computations *)

(** The Python exceptions the modelled code can raise.  [LinAlgError] stands
    for whatever the sparse solver raises; [Diverged] marks a loop that has
    used up the fuel of the model, and is shown never to occur. *)
Inductive exn : Type :=
| ValueError
| IndexError
| AttributeError
| UnboundLocalError
| LinAlgError
| Diverged.

Inductive result (A : Type) : Type :=
| Ok (a : A)
| Err (e : exn).
Arguments Ok {A} a.
Arguments Err {A} e.

#[export] Instance result_ret : MRet result := fun A a => Ok a.
#[export] Instance result_bind : MBind result := fun A B k m =>
  match m with
  | Ok a => k a
  | Err e => Err e
  end.

(** The value of an option, and the exception [e] when there is none. *)
Definition or_raise {A : Type} (e : exn) (o : option A) : result A :=
  match o with
  | Some a => Ok a
  | None => Err e
  end.

#[export] Instance result_fmap : FMap result := fun A B g m =>
  match m with
  | Ok a => Ok (g a)
  | Err e => Err e
  end.

(** Monadic left fold: the body of a [for] loop run over a list of indices. *)
Fixpoint foldM {A B : Type} (f : A → B → result A) (a : A) (l : list B) : result A :=
  match l with
  | [] => Ok a
  | b :: l' => a' ← f a b; foldM f a' l'
  end.

(** ** Scalars *)

(** The operations the solver performs on Python floats, and the float
    literals that occur in ips.py. *)
Class Scalar (F : Type) : Type := {
  f_zero : F;                 (* 0.0 *)
  f_one : F;                  (* 1.0 *)
  f_safety : F;               (* 0.9999995 *)
  f_tenth : F;                (* 0.1 *)
  f_huge : F;                 (* 1e20 *)
  f_add : F → F → F;
  f_sub : F → F → F;
  f_mul : F → F → F;
  f_div : F → F → F;
  f_opp : F → F;
  f_abs : F → F;
  f_ltb : F → F → bool;
  f_leb : F → F → bool;
  f_of_int : Z → F            (* int to float conversion *)
}.

Declare Scope scalar_scope.
Delimit Scope scalar_scope with S.
Notation "x + y" := (f_add x y) : scalar_scope.
Notation "x - y" := (f_sub x y) : scalar_scope.
Notation "x * y" := (f_mul x y) : scalar_scope.
Notation "x / y" := (f_div x y) : scalar_scope.
Notation "- x" := (f_opp x) : scalar_scope.
Notation "x <? y" := (f_ltb x y) : scalar_scope.
Notation "x <=? y" := (f_leb x y) : scalar_scope.

(** IEEE binary64, as CPython, numpy and numba compute. *)
#[export] Instance float_scalar : Scalar float := {|
  f_zero := 0%float;
  f_one := 1%float;
  f_safety := 0.9999995%float;
  f_tenth := 0.1%float;
  f_huge := 1e20%float;
  f_add := PrimFloat.add;
  f_sub := PrimFloat.sub;
  f_mul := PrimFloat.mul;
  f_div := PrimFloat.div;
  f_opp := PrimFloat.opp;
  f_abs := PrimFloat.abs;
  f_ltb := PrimFloat.ltb;
  f_leb := PrimFloat.leb;
  f_of_int := fun n => PrimFloat.of_uint63 (Uint63.of_Z n)
|}.

Section Numeric.
Context {F : Type} `{Scalar F}.
Local Open Scope scalar_scope.

(** Python's builtin [min(a, b)] and [max(a, b)] on two arguments: the first
    argument is kept unless the second is strictly smaller (larger). *)
Definition py_min (a b : F) : F := if b <? a then b else a.
Definition py_max (a b : F) : F := if a <? b then b else a.

(** [v[i]] for [0 <= i].  Compiled by numba, [step_calculation] reads without
    a check of the bounds; reading past the end is an IndexError here. *)
Definition index (v : list F) (i : nat) : result F := or_raise IndexError (v !! i).

(** *** step_calculation *)

(** The body of [for i in range(len(V))]. *)
Definition step_body (V dV : list F) (alpha : F) (i : nat) : result F :=
  dvi ← index dV i;
  if dvi <? f_zero then
    vi ← index V i;
    Ok (py_min alpha (- vi / dvi))
  else Ok alpha.

Definition step_calculation (V dV : list F) : result F :=
  alpha ← foldM (step_body V dV) f_one (seq 0 (length V));
  Ok (py_min (f_safety * alpha) f_one).

(** *** split *)

(** The bound [n] of a slice of a sequence of length [len]: a negative
    bound counts from the end, and bounds are clipped to the sequence. *)
Definition slice_bound (n : Z) (len : nat) : nat :=
  if (n <? 0)%Z then Z.to_nat (Z.max (n + Z.of_nat len) 0)
  else Z.to_nat (Z.min n (Z.of_nat len)).

Definition split (sol : list F) (n : Z) : list F * list F :=
  (take (slice_bound n (length sol)) sol, drop (slice_bound n (length sol)) sol).

(** *** calc_error *)

(** The inner loop of [calc_error] over one array. *)
Definition calc_error_arr (err : F) (arr : list F) : F :=
  fold_left (fun err a => let v := f_abs a in if err <? v then v else err) arr err.

Definition calc_error (dx dz dmu dlmbda : list F) : F :=
  fold_left calc_error_arr [dx; dz; dmu; dlmbda] f_zero.

End Numeric.

(** ** Numpy vectors *)

Section Vectors.
Context {F : Type} `{Scalar F}.
Local Open Scope scalar_scope.

(** Elementwise operations on vectors of one length; the dimensions [n_x],
    [n_eq] and [n_ineq] of a call fix the length of every vector in it.  (On
    two lengths numpy stretches a vector of length 1 and raises otherwise;
    here the longer vector is cut.) *)
Definition vadd (a b : list F) : list F := zip_with f_add a b.
Definition vsub (a b : list F) : list F := zip_with f_sub a b.
Definition vmul (a b : list F) : list F := zip_with f_mul a b.
Definition vneg (a : list F) : list F := f_opp <$> a.
(** [a * s] and [s * a] and [s / a] for a scalar [s]. *)
Definition vscale_r (a : list F) (s : F) : list F := (λ v, v * s) <$> a.
Definition vscale_l (s : F) (a : list F) : list F := (λ v, s * v) <$> a.
Definition sdiv (s : F) (a : list F) : list F := (λ v, s / v) <$> a.
(** [a @ b] for two vectors, summed from the left. *)
Definition dot (a b : list F) : F := fold_left f_add (vmul a b) f_zero.

(** [np.ones(n)] and [np.zeros(n)]: a negative dimension is refused. *)
Definition np_ones (n : Z) : result (list F) :=
  if (n <? 0)%Z then Err ValueError else Ok (replicate (Z.to_nat n) f_one).
Definition np_zeros (n : Z) : result (list F) :=
  if (n <? 0)%Z then Err ValueError else Ok (replicate (Z.to_nat n) f_zero).

(** [v[i] = a]: a negative index counts from the end. *)
Definition setitem (v : list F) (i : Z) (a : F) : result (list F) :=
  let j := if (i <? 0)%Z then (i + Z.of_nat (length v))%Z else i in
  if ((0 <=? j)%Z && (j <? Z.of_nat (length v))%Z)%bool
  then Ok (<[Z.to_nat j := a]> v)
  else Err IndexError.
End Vectors.

(** ** Sparse matrices *)

(** The matrix operations of scipy.sparse that the solver calls, and the two
    helpers [diags] and [pack_3_by_4] of GridCalEngine.Utils.Sparse.csc, which
    is not among the sources, over a matrix type [Mat].  The solver is a
    function of this interface.  [spsolve] is the only operation taken as
    fallible: it answers [None] when the linear solve raises. *)
Class LinAlg (F Mat : Type) : Type := {
  madd : Mat → Mat → Mat;                 (* A + B *)
  mmul : Mat → Mat → Mat;                 (* A @ B *)
  mT : Mat → Mat;                         (* A.T *)
  tocsc : Mat → Mat;                      (* A.tocsc() *)
  mvec : Mat → list F → list F;           (* A @ v *)
  diags : list F → Mat;
  pack_3_by_4 : Mat → Mat → Mat → Mat;
  spsolve : Mat → list F → option (list F)
}.

(** ** The records of ips.py *)

(** Fields carry the prefix [r_] (resp. [sol_]) before the name they have in
    the dataclass. *)
Record IpsFunctionReturn (F Mat : Type) : Type := mkIpsFunctionReturn {
  r_f : F;
  r_G : list F;
  r_H : list F;
  r_fx : list F;
  r_Gx : Mat;
  r_Hx : Mat;
  r_fxx : Mat;
  r_Gxx : Mat;
  r_Hxx : Mat;
  r_S : list (F * F);
  r_Sf : list (F * F);
  r_St : list (F * F)
}.
Arguments mkIpsFunctionReturn {F Mat}.
Arguments r_f {F Mat}. Arguments r_G {F Mat}. Arguments r_H {F Mat}.
Arguments r_fx {F Mat}. Arguments r_Gx {F Mat}. Arguments r_Hx {F Mat}.
Arguments r_fxx {F Mat}. Arguments r_Gxx {F Mat}. Arguments r_Hxx {F Mat}.
Arguments r_S {F Mat}. Arguments r_Sf {F Mat}. Arguments r_St {F Mat}.

(** An address of a numpy array shared with the caller. *)
Abbreviation loc := nat.

(** [sol_x] is a reference: the array itself is in the heap. *)
Record IpsSolution (F Mat : Type) : Type := mkIpsSolution {
  sol_x : loc;
  sol_error : F;
  sol_gamma : F;
  sol_lam : list F;
  sol_structs : IpsFunctionReturn F Mat;
  sol_converged : bool;
  sol_iterations : Z;
  sol_error_evolution : list F
}.
Arguments mkIpsSolution {F Mat}.
Arguments sol_x {F Mat}. Arguments sol_error {F Mat}. Arguments sol_gamma {F Mat}.
Arguments sol_lam {F Mat}. Arguments sol_structs {F Mat}.
Arguments sol_converged {F Mat}. Arguments sol_iterations {F Mat}.
Arguments sol_error_evolution {F Mat}.

(** What the solver prints, one event per [print] (the three data frames of
    one iteration together). *)
Inductive event (F : Type) : Type :=
| PrintIteration (iter_counter : Z)
| PrintFrames (x dx lam dlam mu z dmu dz : list F)
| PrintGamma (gamma : F)
| PrintErr (error : F)
| PrintSolutionHeader
| PrintX (x : list F)
| PrintLam (lam : list F)
| PrintFobj (f : F)
| PrintIterations (iter_counter : Z)
| PrintTimeElapsed.
Arguments PrintIteration {F}. Arguments PrintFrames {F}. Arguments PrintGamma {F}.
Arguments PrintErr {F}. Arguments PrintSolutionHeader {F}. Arguments PrintX {F}.
Arguments PrintLam {F}. Arguments PrintFobj {F}. Arguments PrintIterations {F}.
Arguments PrintTimeElapsed {F}.

(** The local variables of [interior_point_solver], the heap of the arrays
    shared with the caller ([x0], and [x] once it is returned) and the text
    printed so far; a field [st_v] is the variable [v].  [st_ret] is [None]
    while [ret] is unbound. *)
Record ips_state (F Mat : Type) : Type := mkState {
  st_heap : gmap loc (list F);
  st_x : loc;
  st_error : F;
  st_iter_counter : Z;
  st_f : F;
  st_gamma : F;
  st_lam : list F;
  st_mu : list F;
  st_z : list F;
  st_e : list F;
  st_z_inv : Mat;
  st_mu_diag : Mat;
  st_converged : bool;
  st_error_evolution : list F;
  st_ret : option (IpsFunctionReturn F Mat);
  st_stdout : list (event F)
}.
Arguments mkState {F Mat}.
Arguments st_heap {F Mat}. Arguments st_x {F Mat}. Arguments st_error {F Mat}.
Arguments st_iter_counter {F Mat}. Arguments st_f {F Mat}. Arguments st_gamma {F Mat}.
Arguments st_lam {F Mat}. Arguments st_mu {F Mat}. Arguments st_z {F Mat}. Arguments st_e {F Mat}.
Arguments st_z_inv {F Mat}. Arguments st_mu_diag {F Mat}. Arguments st_converged {F Mat}.
Arguments st_error_evolution {F Mat}. Arguments st_ret {F Mat}. Arguments st_stdout {F Mat}.

(** What a call that returns leaves behind. *)
Record outcome (F Mat : Type) : Type := mkOutcome {
  out_solution : IpsSolution F Mat;
  out_heap : gmap loc (list F);
  out_stdout : list (event F)
}.
Arguments mkOutcome {F Mat}.
Arguments out_solution {F Mat}. Arguments out_heap {F Mat}. Arguments out_stdout {F Mat}.

(** ** interior_point_solver *)

Section Solver.
Context {F Mat : Type} `{Scalar F} `{LinAlg F Mat}.
Local Open Scope scalar_scope.

(** The arguments of the call.  [x0] is the address of the initial point in
    the heap [h0]; [func] is the evaluator with [arg] applied, a function of
    the values of [x], [mu] and [lam]. *)
Variable h0 : gmap loc (list F).
Variable x0 : loc.
Variables n_x n_eq n_ineq : Z.
Variable func : list F → list F → list F → IpsFunctionReturn F Mat.
Variable max_iter : Z.
Variable tol : F.
Variable verbose : Z.

(** The array at an address. *)
Definition deref (h : gmap loc (list F)) (l : loc) : result (list F) :=
  or_raise AttributeError (h !! l).

(** Lines 220 to 240: the state at the first test of the loop. *)
Definition init_state : result (ips_state F Mat) :=
  let error := f_huge in
  let iter_counter := 0%Z in
  let f := f_zero in
  x0_arr ← deref h0 x0;
  let x := fresh (dom h0) in
  let heap := <[x := x0_arr]> h0 in
  let gamma := f_one in
  lam ← np_ones n_eq;
  mu ← np_ones n_ineq;
  z ← np_ones n_ineq;
  e ← np_ones n_ineq;
  let z_inv := diags (sdiv f_one z) in
  let mu_diag := diags mu in
  let converged := error <=? gamma in
  error_evolution ← np_zeros (max_iter + 1);
  error_evolution ← setitem error_evolution 0 error;
  Ok (mkState heap x error iter_counter f gamma lam mu z e z_inv mu_diag
        converged error_evolution None []).

(** [while not converged and iter_counter < max_iter] *)
Definition loop_test (st : ips_state F Mat) : bool :=
  negb (st_converged st) && (st_iter_counter st <? max_iter)%Z.

(** Lines 282 to 293: the printing of one iteration. *)
Definition print_iteration (iter_counter : Z) (x dx lam dlam mu z dmu dz : list F)
    (gamma error : F) : list (event F) :=
  if (1 <? verbose)%Z then
    [PrintIteration iter_counter]
    ++ (if (2 <? verbose)%Z then [PrintFrames x dx lam dlam mu z dmu dz] else [])
    ++ [PrintGamma gamma; PrintErr error]
  else [].

(** Lines 243 to 298: the body of the loop. *)
Definition iteration (st : ips_state F Mat) : result (ips_state F Mat) :=
  x_arr ← deref (st_heap st) (st_x st);
  let ret := func x_arr (st_mu st) (st_lam st) in
  let M := madd (madd (madd (r_fxx ret) (r_Gxx ret)) (r_Hxx ret))
                (mmul (mmul (mmul (r_Hx ret) (st_z_inv st)) (st_mu_diag st)) (mT (r_Hx ret))) in
  let J := pack_3_by_4 (tocsc M) (tocsc (r_Gx ret)) (tocsc (mT (r_Gx ret))) in
  let N := vadd (vadd (vadd (r_fx ret) (mvec (r_Hx ret) (st_mu st)))
                      (mvec (mmul (r_Hx ret) (st_z_inv st))
                            (vadd (vscale_l (st_gamma st) (st_e st)) (vmul (st_mu st) (r_H ret)))))
                (mvec (r_Gx ret) (st_lam st)) in
  let r := vneg (N ++ r_G ret) in
  sol ← or_raise LinAlgError (spsolve J r);
  let '(dx, dlam) := split sol n_x in
  let dz := vsub (vsub (vneg (r_H ret)) (st_z st)) (mvec (mT (r_Hx ret)) dx) in
  let dmu := vadd (vneg (st_mu st))
                  (mvec (st_z_inv st) (vsub (vscale_l (st_gamma st) (st_e st)) (vmul (st_mu st) dz))) in
  alpha_p ← step_calculation (st_z st) dz;
  alpha_d ← step_calculation (st_mu st) dmu;
  let x_arr := vadd x_arr (vscale_r dx alpha_p) in
  let heap := <[st_x st := x_arr]> (st_heap st) in
  let z := vadd (st_z st) (vscale_r dz alpha_p) in
  let lam := vadd (st_lam st) (vscale_r dlam alpha_d) in
  let mu := vadd (st_mu st) (vscale_r dmu alpha_d) in
  let gamma := py_max (f_tenth * dot mu z / f_of_int n_ineq) tol in
  let error := calc_error dx dz dmu dlam in
  let z_inv := diags (sdiv f_one z) in
  let mu_diag := diags mu in
  let converged := error <=? gamma in
  let stdout := st_stdout st
                ++ print_iteration (st_iter_counter st) x_arr dx lam dlam mu z dmu dz gamma error in
  let iter_counter := (st_iter_counter st + 1)%Z in
  error_evolution ← setitem (st_error_evolution st) iter_counter error;
  Ok (mkState heap (st_x st) error iter_counter (st_f st) gamma lam mu z (st_e st) z_inv mu_diag
        converged error_evolution (Some ret) stdout).

(** The loop, on the number of iterations it may still take. *)
Fixpoint while_loop (fuel : nat) (st : ips_state F Mat) : result (ips_state F Mat) :=
  if loop_test st then
    match fuel with
    | O => Err Diverged
    | S fuel' => st' ← iteration st; while_loop fuel' st'
    end
  else Ok st.

(** Lines 302 to 309. *)
Definition print_solution (st : ips_state F Mat) (x_arr : list F) : list (event F) :=
  if (0 <? verbose)%Z then
    [PrintSolutionHeader; PrintX x_arr; PrintLam (st_lam st); PrintFobj (st_f st);
     PrintErr (st_error st); PrintIterations (st_iter_counter st); PrintTimeElapsed]
  else [].

(** Lines 300 to 312: the printing of the solution and the return. *)
Definition finish (st : ips_state F Mat) : result (outcome F Mat) :=
  x_arr ← deref (st_heap st) (st_x st);
  let stdout := st_stdout st ++ print_solution st x_arr in
  match st_ret st with
  | None => Err UnboundLocalError
  | Some ret =>
      Ok (mkOutcome
            (mkIpsSolution (st_x st) (st_error st) (st_gamma st) (st_lam st) ret
               (st_converged st) (st_iter_counter st) (st_error_evolution st))
            (st_heap st) stdout)
  end.

Definition interior_point_solver : result (outcome F Mat) :=
  st0 ← init_state;
  st ← while_loop (Z.to_nat max_iter) st0;
  finish st.

(** The matrix [J] and the right-hand side [r] that [iteration] hands to
    [spsolve] in state [st], [x_arr] being the array [x]. *)
Definition newton_system (st : ips_state F Mat) (x_arr : list F) : Mat * list F :=
  let ret := func x_arr (st_mu st) (st_lam st) in
  (pack_3_by_4
     (tocsc (madd (madd (madd (r_fxx ret) (r_Gxx ret)) (r_Hxx ret))
                  (mmul (mmul (mmul (r_Hx ret) (st_z_inv st)) (st_mu_diag st)) (mT (r_Hx ret)))))
     (tocsc (r_Gx ret)) (tocsc (mT (r_Gx ret))),
   vneg (vadd (vadd (vadd (r_fx ret) (mvec (r_Hx ret) (st_mu st)))
                    (mvec (mmul (r_Hx ret) (st_z_inv st))
                          (vadd (vscale_l (st_gamma st) (st_e st)) (vmul (st_mu st) (r_H ret)))))
              (mvec (r_Gx ret) (st_lam st))
         ++ r_G ret)).

(** The increments [dx], [dlam], [dz] and [dmu] of lines 255 to 261, from the
    solution [sol] of the linear system. *)
Definition increments (st : ips_state F Mat) (x_arr sol : list F)
    : list F * list F * list F * list F :=
  let ret := func x_arr (st_mu st) (st_lam st) in
  let '(dx, dlam) := split sol n_x in
  let dz := vsub (vsub (vneg (r_H ret)) (st_z st)) (mvec (mT (r_Hx ret)) dx) in
  let dmu := vadd (vneg (st_mu st))
                  (mvec (st_z_inv st)
                        (vsub (vscale_l (st_gamma st) (st_e st)) (vmul (st_mu st) dz))) in
  (dx, dlam, dz, dmu).

(** Lines 268 to 298 once the linear solve and the two calls of
    [step_calculation] have returned. *)
Definition advance (st : ips_state F Mat) (x_arr sol : list F) (alpha_p alpha_d : F)
    : ips_state F Mat :=
  let ret := func x_arr (st_mu st) (st_lam st) in
  let '(dx, dlam, dz, dmu) := increments st x_arr sol in
  let x_arr := vadd x_arr (vscale_r dx alpha_p) in
  let heap := <[st_x st := x_arr]> (st_heap st) in
  let z := vadd (st_z st) (vscale_r dz alpha_p) in
  let lam := vadd (st_lam st) (vscale_r dlam alpha_d) in
  let mu := vadd (st_mu st) (vscale_r dmu alpha_d) in
  let gamma := py_max (f_tenth * dot mu z / f_of_int n_ineq) tol in
  let error := calc_error dx dz dmu dlam in
  let stdout := st_stdout st
                ++ print_iteration (st_iter_counter st) x_arr dx lam dlam mu z dmu dz gamma error in
  mkState heap (st_x st) error (st_iter_counter st + 1)%Z (st_f st) gamma lam mu z (st_e st)
    (diags (sdiv f_one z)) (diags mu) (error <=? gamma)
    (<[Z.to_nat (st_iter_counter st + 1) := error]> (st_error_evolution st))
    (Some ret) stdout.




(** The states in which a call tests the condition of its loop: the state
    after the initialisation, and the state after each iteration. *)
Inductive reachable : ips_state F Mat → Prop :=
| reachable_init (st : ips_state F Mat) :
    init_state = Ok st → reachable st
| reachable_step (st st' : ips_state F Mat) :
    reachable st → loop_test st = true → iteration st = Ok st' → reachable st'.

End Solver.

(** A state without what was printed, and what a call leaves without what it
    printed: the solution record and the heap, or the exception. *)
Definition silent {F Mat : Type} (st : ips_state F Mat) : ips_state F Mat :=
  mkState (st_heap st) (st_x st) (st_error st) (st_iter_counter st) (st_f st) (st_gamma st)
    (st_lam st) (st_mu st) (st_z st) (st_e st) (st_z_inv st) (st_mu_diag st)
    (st_converged st) (st_error_evolution st) (st_ret st) [].

Definition numerical_content {F Mat : Type} (r : result (outcome F Mat))
    : result (IpsSolution F Mat * gmap loc (list F)) :=
  (λ o, (out_solution o, out_heap o)) <$> r.

(** ** A dense implementation of the matrix interface *)

(** Matrices as rows of entries with their shape, so that the interface can be
    run.  A sparse matrix skips the zeros that it does not store, where this
    one multiplies and adds them: the two agree as long as no zero meets an
    infinity or a NaN.  The sums run from the left. *)
Record dmat (F : Type) : Type := mkDmat {
  nrows : nat;
  ncols : nat;
  rows : list (list F)
}.
Arguments mkDmat {F}. Arguments nrows {F}. Arguments ncols {F}. Arguments rows {F}.

Section Dense.
Context {F : Type} `{Scalar F}.
Local Open Scope scalar_scope.

Definition tabulate (r c : nat) (g : nat → nat → F) : dmat F :=
  mkDmat r c ((λ i, (λ j, g i j) <$> seq 0 c) <$> seq 0 r).

Definition entry (A : dmat F) (i j : nat) : F :=
  default f_zero (rows A !! i ≫= (.!! j)).

(** The sum of a list from the left; the first summand starts it. *)
Definition fsum (l : list F) : F :=
  match l with
  | [] => f_zero
  | a :: l' => fold_left f_add l' a
  end.


Definition d_add (A B : dmat F) : dmat F :=
  tabulate (nrows A) (ncols A) (λ i j, entry A i j + entry B i j).
Definition d_mul (A B : dmat F) : dmat F :=
  tabulate (nrows A) (ncols B)
    (λ i j, fsum ((λ k, entry A i k * entry B k j) <$> seq 0 (ncols A))).
Definition d_T (A : dmat F) : dmat F :=
  tabulate (ncols A) (nrows A) (λ i j, entry A j i).
Definition d_vec (A : dmat F) (v : list F) : list F :=
  (λ i, fsum ((λ k, entry A i k * default f_zero (v !! k)) <$> seq 0 (ncols A)))
    <$> seq 0 (nrows A).
(** Modelled from the spec: [diags] of GridCalEngine.Utils.Sparse.csc, the
    square matrix with the vector on its diagonal. *)
Definition d_diags (v : list F) : dmat F :=
  tabulate (length v) (length v)
    (λ i j, if Nat.eqb i j then default f_zero (v !! i) else f_zero).

(** Modelled from the spec: [pack_3_by_4] of GridCalEngine.Utils.Sparse.csc,
    the block matrix [[A, B], [C, 0]]. *)
Definition d_pack_3_by_4 (A B C : dmat F) : dmat F :=
  tabulate (nrows A + nrows C) (ncols A + ncols B)
    (λ i j, if Nat.ltb i (nrows A)
            then (if Nat.ltb j (ncols A) then entry A i j else entry B i (j - ncols A))
            else (if Nat.ltb j (ncols A) then entry C (i - nrows A) j else f_zero)).

(** Neither below nor above zero: a zero, or not a number. *)
Definition no_pivot (a : F) : bool := negb (a <? f_zero) && negb (f_zero <? a).

(** The row with the largest first entry in absolute value, the first of
    them, and the rows that remain. *)
Fixpoint pick_pivot (rs : list (list F)) : option (list F * list (list F)) :=
  match rs with
  | [] => None
  | r :: rs' =>
      match pick_pivot rs' with
      | None => Some (r, [])
      | Some (p, rest) =>
          if f_abs (default f_zero (head r)) <? f_abs (default f_zero (head p))
          then Some (p, r :: rest)
          else Some (r, p :: rest)
      end
  end.

(** Gaussian elimination with row pivoting on [n] rows [coefficients ++
    [right-hand side]]; [None] when a pivot is missing.  One equation
    [a * x = b] is solved by the one division [b / a]. *)
Fixpoint gauss (n : nat) (rs : list (list F)) : option (list F) :=
  match n with
  | O => Some []
  | S n' =>
      '(p, rest) ← pick_pivot rs;
      match p with
      | [] => None
      | a :: p' =>
          if no_pivot a then None
          else
            let rest' := (λ r : list F,
                            match r with
                            | [] => []
                            | c :: r' => zip_with (λ rj pj, rj - c / a * pj) r' p'
                            end) <$> rest in
            xs ← gauss n' rest';
            let rhs := default f_zero (last p') in
            Some (fold_left (λ acc cx, acc - fst cx * snd cx) (zip (take n' p') xs) rhs / a
                  :: xs)
      end
  end.

(** The linear solve, given what a singular system of [n] equations
    answers. *)
Definition d_spsolve (singular : nat → option (list F)) (A : dmat F) (b : list F)
    : option (list F) :=
  match gauss (nrows A) (zip_with (λ r bi, r ++ [bi]) (rows A) b) with
  | Some xs => Some xs
  | None => singular (nrows A)
  end.

Definition dense_linalg (singular : nat → option (list F)) : LinAlg F (dmat F) := {|
  madd := d_add;
  mmul := d_mul;
  mT := d_T;
  tocsc := id;
  mvec := d_vec;
  diags := d_diags;
  pack_3_by_4 := d_pack_3_by_4;
  spsolve := d_spsolve singular
|}.
End Dense.

(** scipy's [spsolve] on an exactly singular matrix warns (MatrixRankWarning)
    and returns a vector filled with NaN. *)
Definition scipy_linalg : LinAlg float (dmat float) :=
  dense_linalg (λ n, Some (replicate n PrimFloat.nan)).

(** A solve that raises on a singular matrix, as [spsolve] does when
    warnings are turned into errors, and as numpy.linalg.solve does. *)
Definition raising_linalg : LinAlg float (dmat float) :=
  dense_linalg (λ _, None).

(** ** Three small problems *)

Section Problems.
Context {F : Type} `{Scalar F}.
Local Open Scope scalar_scope.

Definition f_two : F := f_one + f_one.

(** An [r] by [c] matrix of zeros. *)
Definition zeros (r c : nat) : dmat F := tabulate r c (λ _ _, f_zero).

(** Minimise [x^2] subject to [1 - x <= 0]: one variable, one inequality. *)
Definition qp_bound (x mu lam : list F) : IpsFunctionReturn F (dmat F) :=
  let x1 := default f_zero (x !! 0%nat) in
  mkIpsFunctionReturn (x1 * x1) [] [f_one - x1] [f_two * x1]
    (zeros 1 0) (mkDmat 1 1 [[- f_one]])
    (mkDmat 1 1 [[f_two]]) (zeros 1 1) (zeros 1 1) [] [] [].

(** Minimise [x^2] subject to [x - 1 = 0]: one variable, one equality, no
    inequality. *)
Definition qp_equality (x mu lam : list F) : IpsFunctionReturn F (dmat F) :=
  let x1 := default f_zero (x !! 0%nat) in
  mkIpsFunctionReturn (x1 * x1) [x1 - f_one] [] [f_two * x1]
    (mkDmat 1 1 [[f_one]]) (zeros 1 0)
    (mkDmat 1 1 [[f_two]]) (zeros 1 1) (zeros 1 0) [] [] [].

(** Minimise [x1 + x2] subject to [1 - x1 - x2 <= 0]: a linear program whose
    optimum is a whole line.  Its matrix [J] is [[1, 1], [1, 1]] in the first
    iteration, which is singular. *)
Definition lp_line (x mu lam : list F) : IpsFunctionReturn F (dmat F) :=
  let x1 := default f_zero (x !! 0%nat) in
  let x2 := default f_zero (x !! 1%nat) in
  mkIpsFunctionReturn (x1 + x2) [] [f_one - x1 - x2] [f_one; f_one]
    (zeros 2 0) (mkDmat 2 1 [[- f_one]; [- f_one]])
    (zeros 2 2) (zeros 2 2) (zeros 2 2) [] [] [].

(** The caller's heap: the initial point at address 0. *)
Definition heap_of (x0_arr : list F) : gmap loc (list F) := {[ 0%nat := x0_arr ]}.

End Problems.

(** ** The step bound as the specification words it *)

Section StepSpec.
Context {F : Type} `{Scalar F}.
Local Open Scope scalar_scope.

(** The ratios [-V[i] / dV[i]] of the components with [dV[i] < 0], in the
    order of the components. *)
Definition ratios (V dV : list F) : list F :=
  (λ p, - fst p / snd p) <$> filter (λ p, (snd p <? f_zero) = true) (zip V dV).

(** The bound that the loop of [step_calculation] builds: the minimum of 1.0
    and of the ratios. *)
Definition step_bound (V dV : list F) : F := fold_left py_min (ratios V dV) f_one.

(** The minimum of the ratios alone, and 1.0 when there is none. *)
Definition min_ratio (V dV : list F) : F :=
  match ratios V dV with
  | [] => f_one
  | r :: rs => fold_left py_min rs r
  end.

(** The step as the specification gives it: the minimum ratio, scaled by
    0.9999995 and then capped at 1.0. *)
Definition spec_step (V dV : list F) : F := py_min f_one (f_safety * min_ratio V dV).
End StepSpec.

(** ** The accuracy of the step rule on binary64 *)

(** The rational number that a finite binary64 number stands for, and 0 for
    the others. *)
Definition SF2Q (x : spec_float) : Q :=
  match x with
  | S754_finite s m e => (inject_Z (cond_Zopp s (Zpos m)) * (2 # 1) ^ e)%Q
  | _ => 0%Q
  end.
Definition F2Q (x : float) : Q := SF2Q (Prim2SF x).

(** A zero or a finite number: neither an infinity nor NaN. *)
Definition SFfinite (x : spec_float) : bool :=
  match x with
  | S754_zero _ | S754_finite _ _ _ => true
  | _ => false
  end.
Definition finite (x : float) : bool := SFfinite (Prim2SF x).

(** One plus the relative error that is allowed to a rounding, 1e-8.
    (binary64 rounds within 1.2e-16 of the exact value when the result
    neither underflows nor overflows.) *)
Definition slack : Q := 1 + (1 # 100000000).

(** The number [y], computed for the exact value [q], is finite and exceeds
    [q] in magnitude by no more than the relative error. *)
Definition accurate (y : float) (q : Q) : Prop :=
  finite y = true ∧ (Qabs (F2Q y) <= slack * Qabs q)%Q.

(** The increment of every component of [V] is finite. *)
Definition step_finite (V dV : list float) : Prop :=
  ∀ (i : nat) (v dv : float), V !! i = Some v → dV !! i = Some dv → finite dv = true.

(** The roundings of [step_calculation V dV] and of the update
    [V += dV * alpha] that follows it: every increment is finite, the
    scaling by 0.9999995 is accurate, and for each component that decreases
    so are the ratio [-V[i] / dV[i]] and the product [dV[i] * alpha]. *)
Definition step_accurate (V dV : list float) : Prop :=
  let alpha0 := step_bound V dV in
  let alpha := py_min (f_mul f_safety alpha0) f_one in
  accurate (f_mul f_safety alpha0) (F2Q f_safety * F2Q alpha0)
  ∧ ∀ (i : nat) (v dv : float),
      V !! i = Some v → dV !! i = Some dv →
      finite dv = true
      ∧ (f_ltb dv f_zero = true →
         accurate (f_div (f_opp v) dv) (- F2Q v / F2Q dv)
         ∧ accurate (f_mul dv alpha) (F2Q dv * F2Q alpha)).

Section AccurateRuns.
Context {Mat : Type} `{LinAlg float Mat}.

Variable h0 : gmap loc (list float).
Variable x0 : loc.
Variables n_x n_eq n_ineq : Z.
Variable func : list float → list float → list float → IpsFunctionReturn float Mat.
Variable max_iter : Z.
Variable tol : float.
Variable verbose : Z.

(** The states that a call on binary64 reaches through iterations whose two
    steps, of [z] and of [mu], are accurate. *)
Inductive reachable_accurately : ips_state float Mat → Prop :=
| accurately_init (st : ips_state float Mat) :
    init_state h0 x0 n_eq n_ineq max_iter = Ok st → reachable_accurately st
| accurately_step (st st' : ips_state float Mat) (x_arr sol : list float) :
    reachable_accurately st →
    loop_test max_iter st = true →
    st_heap st !! st_x st = Some x_arr →
    spsolve (newton_system func st x_arr).1 (newton_system func st x_arr).2 = Some sol →
    step_accurate (st_z st) (increments n_x func st x_arr sol).1.2 →
    step_accurate (st_mu st) (increments n_x func st x_arr sol).2 →
    iteration n_x n_ineq func tol verbose st = Ok st' →
    reachable_accurately st'.

(** The states that a call on binary64 reaches through iterations whose
    increments [dz] and [dmu] are finite, whatever the accuracy of the
    roundings. *)
Inductive reachable_finitely : ips_state float Mat → Prop :=
| finitely_init (st : ips_state float Mat) :
    init_state h0 x0 n_eq n_ineq max_iter = Ok st → reachable_finitely st
| finitely_step (st st' : ips_state float Mat) (x_arr sol : list float) :
    reachable_finitely st →
    loop_test max_iter st = true →
    st_heap st !! st_x st = Some x_arr →
    spsolve (newton_system func st x_arr).1 (newton_system func st x_arr).2 = Some sol →
    step_finite (st_z st) (increments n_x func st x_arr sol).1.2 →
    step_finite (st_mu st) (increments n_x func st x_arr sol).2 →
    iteration n_x n_ineq func tol verbose st = Ok st' →
    reachable_finitely st'.

End AccurateRuns.

(** One variable and one inequality whose value the evaluator switches as
    [x] advances: -0.001 while [x < 15.5], 0 while [x < 17.5] and 3e305 from
    then on.  The gradient of the objective is -1 and its Hessian 1, so that
    the Newton step of [x] is 1 in every iteration; the Jacobian of the
    inequality is 0. *)
Definition qp_switching (x mu lam : list float) : IpsFunctionReturn float (dmat float) :=
  let x1 := default 0%float (x !! 0%nat) in
  let h := if PrimFloat.ltb x1 15.5 then (-0.001)%float
           else if PrimFloat.ltb x1 17.5 then 0%float else 3e305%float in
  mkIpsFunctionReturn 0%float [] [h] [(-1)%float]
    (zeros 1 0) (zeros 1 1)
    (mkDmat 1 1 [[1%float]]) (zeros 1 1) (zeros 1 1) [] [] [].

(** ** IpsFunctionReturn.get_data, get_headers and compare *)

(** What an entry of [get_data] holds, a float, a vector or a sparse matrix,
    and what [toarray] makes of a sparse matrix, over a type [Arr] of dense
    two-dimensional arrays. *)
Inductive value (F Mat Arr : Type) : Type :=
| VFloat (f : F)
| VVec (v : list F)
| VSparse (m : Mat)
| VArray (a : Arr).
Arguments VFloat {F Mat Arr}. Arguments VVec {F Mat Arr}.
Arguments VSparse {F Mat Arr}. Arguments VArray {F Mat Arr}.

(** The operations of numpy and scipy that [compare] calls, on operands of
    one shape. *)
Class Numpy (F Mat Arr : Type) : Type := {
  toarray : Mat → Arr;                                              (* m.toarray() *)
  allclose : value F Mat Arr → value F Mat Arr → F → bool;          (* np.allclose(a, b, atol=atol) *)
  subtract : value F Mat Arr → value F Mat Arr → value F Mat Arr    (* a - b *)
}.

Section Compare.
Context {F Mat Arr : Type} `{Scalar F} `{Numpy F Mat Arr}.
Local Open Scope scalar_scope.

Definition get_data (self : IpsFunctionReturn F Mat) : list (value F Mat Arr) :=
  [VFloat (r_f self); VVec (r_G self); VVec (r_H self); VVec (r_fx self);
   VSparse (r_Gx self); VSparse (r_Hx self);
   VSparse (r_fxx self); VSparse (r_Gxx self); VSparse (r_Hxx self)].

Definition get_headers : list string :=
  ["f"; "G"; "H"; "fx"; "Gx"; "Hx"; "fxx"; "Gxx"; "Hxx"]%string.

(** [sparse.isspmatrix(v)] *)
Definition isspmatrix (v : value F Mat Arr) : bool :=
  match v with VSparse _ => true | _ => false end.

(** [v.toarray()]: a method of the sparse matrices alone. *)
Definition value_toarray (v : value F Mat Arr) : result (value F Mat Arr) :=
  match v with VSparse m => Ok (VArray (toarray m)) | _ => Err AttributeError end.

(** Lines 127 to 138: the body of the loop of [compare], on the dictionary
    [errors]. *)
Definition compare_item (h : F) (errors : gmap string (value F Mat Arr))
    (item : value F Mat Arr * value F Mat Arr * string)
    : result (gmap string (value F Mat Arr)) :=
  let '(analytic_struct, finit_struct, name) := item in
  ab ← (if isspmatrix analytic_struct then
          a ← value_toarray analytic_struct;
          b ← value_toarray finit_struct;
          Ok (a, b)
        else Ok (analytic_struct, finit_struct));
  let ok := allclose (fst ab) (snd ab) (h * f_of_int 10) in
  if negb ok then Ok (<[name := subtract (fst ab) (snd ab)]> errors) else Ok errors.

Definition compare (self other : IpsFunctionReturn F Mat) (h : F)
    : result (gmap string (value F Mat Arr)) :=
  foldM (compare_item h) ∅ (zip (zip (get_data self) (get_data other)) get_headers).

(** The operand that [compare] hands to numpy for an entry of [get_data]. *)
Definition operand (v : value F Mat Arr) : value F Mat Arr :=
  match v with VSparse m => VArray (toarray m) | _ => v end.

End Compare.

(** * Properties *)

(** ** The result monad *)

Lemma bind_Ok {A B : Type} (m : result A) (k : A → result B) (b : B) :
  m ≫= k = Ok b → ∃ a, m = Ok a ∧ k a = Ok b.
Proof. destruct m as [a|e]; [eauto | discriminate]. Qed.

Lemma bind_Err {A B : Type} (m : result A) (k : A → result B) (e : exn) :
  m ≫= k = Err e → m = Err e ∨ ∃ a, m = Ok a ∧ k a = Err e.
Proof. destruct m as [a|e']; intros Hm; [right; eauto | left; cbv in Hm; injection Hm as ->; reflexivity]. Qed.

Lemma or_raise_Ok {A : Type} (e : exn) (o : option A) (a : A) :
  or_raise e o = Ok a ↔ o = Some a.
Proof. destruct o; split; intros Heq; inversion Heq; reflexivity. Qed.

Lemma bind_ret_l {A B : Type} (a : A) (k : A → result B) : Ok a ≫= k = k a.
Proof. reflexivity. Qed.

(** Inversion of a chain of binds that ends in [Ok]. *)
Ltac inv_bind Hyp :=
  repeat match type of Hyp with
         | _ ≫= _ = Ok _ =>
             let a := fresh "a" in
             let Ha := fresh "Ha" in
             apply bind_Ok in Hyp; destruct Hyp as (a & Ha & Hyp)
         end.

(** ** step_calculation *)

Section StepFacts.
Context {F : Type} `{Scalar F}.
Local Open Scope scalar_scope.

Lemma ratios_cons_neg (v dv : F) (V dV : list F) :
  (dv <? f_zero) = true → ratios (v :: V) (dv :: dV) = (- v / dv) :: ratios V dV.
Proof.
  intros Hneg. unfold ratios. cbn [zip zip_with].
  rewrite filter_cons_True by (cbn; exact Hneg). reflexivity.
Qed.

Lemma ratios_cons_nonneg (v dv : F) (V dV : list F) :
  (dv <? f_zero) = false → ratios (v :: V) (dv :: dV) = ratios V dV.
Proof.
  intros Hneg. unfold ratios. cbn [zip zip_with].
  rewrite filter_cons_False; [reflexivity|]. cbn. rewrite Hneg. discriminate.
Qed.

(** The loop over the indices [k, k+1, ...] of the components that remain
    folds [py_min] over their ratios. *)
Lemma step_loop_ratios (V2 dV2 : list F) :
  ∀ (V1 dV1 : list F) (alpha : F),
    length V1 = length dV1 → length V2 ≤ length dV2 →
    foldM (step_body (V1 ++ V2) (dV1 ++ dV2)) alpha (seq (length V1) (length V2))
    = Ok (fold_left py_min (ratios V2 dV2) alpha).
Proof.
  revert dV2. induction V2 as [|v V2 IH]; intros [|dv dV2] V1 dV1 alpha H1 H2;
    try reflexivity; [cbn in H2; lia|].
  cbn [length seq foldM].
  assert (Hdv : index (dV1 ++ dv :: dV2) (length V1) = Ok dv).
  { unfold index. rewrite H1, list_lookup_middle; reflexivity. }
  assert (Hv : index (V1 ++ v :: V2) (length V1) = Ok v).
  { unfold index. rewrite list_lookup_middle; reflexivity. }
  assert (Hstep : step_body (V1 ++ v :: V2) (dV1 ++ dv :: dV2) alpha (length V1)
                  = Ok (if dv <? f_zero then py_min alpha (- v / dv) else alpha)).
  { unfold step_body. rewrite Hdv. cbn. destruct (dv <? f_zero); [rewrite Hv|]; reflexivity. }
  rewrite Hstep, bind_ret_l.
  specialize (IH dV2 (V1 ++ [v]) (dV1 ++ [dv])
                (if dv <? f_zero then py_min alpha (- v / dv) else alpha)).
  rewrite <- !app_assoc, !length_app in IH. cbn in IH.
  replace (length V1 + 1)%nat with (S (length V1)) in IH by lia.
  rewrite IH by (cbn in *; lia).
  destruct (dv <? f_zero) eqn:Hneg.
  - rewrite ratios_cons_neg by exact Hneg. reflexivity.
  - rewrite ratios_cons_nonneg by exact Hneg. reflexivity.
Qed.

Lemma step_calculation_bound (V dV : list F) :
  length V ≤ length dV →
  step_calculation V dV = Ok (py_min (f_safety * step_bound V dV) f_one).
Proof.
  intros Hlen. unfold step_calculation, step_bound.
  pose proof (step_loop_ratios V dV [] [] f_one eq_refl Hlen) as Hloop.
  cbn in Hloop. rewrite Hloop. reflexivity.
Qed.
End StepFacts.

(** C1 (as amended).  For vectors [V] and [dV] of one length,
    [step_calculation V dV] returns [min(0.9999995 * m, 1.0)] where [m] is the
    minimum of 1.0 and of the ratios [-V[i] / dV[i]] of the components with
    [dV[i] < 0]: the bound is capped at 1.0 before it is scaled, and [m] is
    1.0 when no component of [dV] is negative. *)
Theorem step_calculation_capped_then_scaled {F : Type} `{Scalar F} (V dV : list F) :
  length V = length dV →
  step_calculation V dV = Ok (py_min (f_mul f_safety (step_bound V dV)) f_one)
  ∧ (ratios V dV = [] → step_bound V dV = f_one).
Proof.
  intros Hlen. split.
  - apply step_calculation_bound. lia.
  - intros Hnone. unfold step_bound. rewrite Hnone. reflexivity.
Qed.

Lemma step_calculation_capped_then_scaled_witness :
  length [1%float; 2%float] = length [(-0.5)%float; 1%float]
  ∧ step_calculation [1%float; 2%float] [(-0.5)%float; 1%float] = Ok 0.9999995%float.
Proof.
  split; [reflexivity|].
  rewrite (proj1 (step_calculation_capped_then_scaled
                    [1%float; 2%float] [(-0.5)%float; 1%float] eq_refl)).
  vm_compute. reflexivity.
Defined.

(** C1 fails as stated: on [V = [1.0, 2.0]], [dV = [-0.5, 1.0]] the only ratio
    is 2.0, the specification's [min(1.0, 0.9999995 * 2.0)] is 1.0, and
    [step_calculation] returns 0.9999995. *)
Lemma step_calculation_not_spec_step :
  spec_step [1%float; 2%float] [(-0.5)%float; 1%float] = 1%float
  ∧ step_calculation [1%float; 2%float] [(-0.5)%float; 1%float] = Ok 0.9999995%float
  ∧ step_calculation [1%float; 2%float] [(-0.5)%float; 1%float] ≠ Ok 1%float.
Proof.
  split; [vm_compute; reflexivity|].
  split; [vm_compute; reflexivity|].
  vm_compute. intros Heq. inversion Heq.
Qed.

(** ** The states of a call *)

Section SolverFacts.
Context {F Mat : Type} `{Scalar F} `{LinAlg F Mat}.
Local Open Scope scalar_scope.

Variable h0 : gmap loc (list F).
Variable x0 : loc.
Variables n_x n_eq n_ineq : Z.
Variable func : list F → list F → list F → IpsFunctionReturn F Mat.
Variable max_iter : Z.
Variable tol : F.
Variable verbose : Z.

Lemma np_ones_Ok (n : Z) (v : list F) :
  np_ones n = Ok v → (0 ≤ n)%Z ∧ v = replicate (Z.to_nat n) f_one.
Proof.
  unfold np_ones. destruct (Z.ltb_spec n 0); [discriminate|].
  intros [= <-]. split; [lia | reflexivity].
Qed.

Lemma np_zeros_Ok (n : Z) (v : list F) :
  np_zeros n = Ok v → (0 ≤ n)%Z ∧ v = replicate (Z.to_nat n) f_zero.
Proof.
  unfold np_zeros. destruct (Z.ltb_spec n 0); [discriminate|].
  intros [= <-]. split; [lia | reflexivity].
Qed.

Lemma setitem_Ok (v v' : list F) (i : Z) (a : F) :
  (0 ≤ i)%Z → setitem v i a = Ok v' →
  (i < Z.of_nat (length v))%Z ∧ v' = <[Z.to_nat i := a]> v.
Proof.
  intros Hi. unfold setitem. destruct (Z.ltb_spec i 0); [lia|].
  destruct (Z.leb_spec 0 i); [|lia].
  destruct (Z.ltb_spec i (Z.of_nat (length v))); [|discriminate].
  intros [= <-]. split; [lia | reflexivity].
Qed.

Lemma setitem_in_range (v : list F) (i : Z) (a : F) :
  (0 ≤ i < Z.of_nat (length v))%Z → setitem v i a = Ok (<[Z.to_nat i := a]> v).
Proof.
  intros Hi. unfold setitem. destruct (Z.ltb_spec i 0); [lia|].
  destruct (Z.leb_spec 0 i); [|lia].
  destruct (Z.ltb_spec i (Z.of_nat (length v))); [reflexivity|lia].
Qed.

Lemma deref_Ok (h : gmap loc (list F)) (l : loc) (v : list F) :
  deref h l = Ok v ↔ h !! l = Some v.
Proof.
  unfold deref, or_raise. destruct (h !! l); split; intros Heq; inversion Heq; reflexivity.
Qed.

(** What the initialisation leaves, when it raises nothing. *)
Lemma init_state_Ok (st : ips_state F Mat) :
  init_state h0 x0 n_eq n_ineq max_iter = Ok st →
  ∃ x0_arr,
    h0 !! x0 = Some x0_arr
    ∧ (0 ≤ n_eq)%Z ∧ (0 ≤ n_ineq)%Z ∧ (0 ≤ max_iter)%Z
    ∧ st = mkState (<[fresh (dom h0) := x0_arr]> h0) (fresh (dom h0))
             f_huge 0 f_zero f_one
             (replicate (Z.to_nat n_eq) f_one)
             (replicate (Z.to_nat n_ineq) f_one)
             (replicate (Z.to_nat n_ineq) f_one)
             (replicate (Z.to_nat n_ineq) f_one)
             (diags (sdiv f_one (replicate (Z.to_nat n_ineq) f_one)))
             (diags (replicate (Z.to_nat n_ineq) f_one))
             (f_huge <=? f_one)
             (<[0%nat := f_huge]> (replicate (Z.to_nat (max_iter + 1)) f_zero))
             None [].
Proof.
  unfold init_state. intros Hinit. inv_bind Hinit.
  apply deref_Ok in Ha.
  apply np_ones_Ok in Ha0 as [Hneq ->].
  apply np_ones_Ok in Ha1 as [Hnineq ->].
  apply np_ones_Ok in Ha2 as [_ ->].
  apply np_ones_Ok in Ha3 as [_ ->].
  apply np_zeros_Ok in Ha4 as [Hmax ->].
  apply setitem_Ok in Ha5 as [Hlen ->]; [|lia].
  rewrite length_replicate in Hlen.
  injection Hinit as <-. exists a. repeat split; try assumption; lia.
Qed.

Lemma init_state_total (x0_arr : list F) :
  h0 !! x0 = Some x0_arr → (0 ≤ n_eq)%Z → (0 ≤ n_ineq)%Z → (0 ≤ max_iter)%Z →
  ∃ st, init_state h0 x0 n_eq n_ineq max_iter = Ok st.
Proof.
  intros Hx0 Hneq Hnineq Hmax. unfold init_state, deref, np_ones, np_zeros.
  rewrite Hx0. cbn [or_raise].
  destruct (Z.ltb_spec n_eq 0); [lia|]. destruct (Z.ltb_spec n_ineq 0); [lia|].
  destruct (Z.ltb_spec (max_iter + 1) 0); [lia|].
  rewrite !bind_ret_l, setitem_in_range; [eexists; reflexivity|].
  rewrite length_replicate. lia.
Qed.

(** An iteration that raises nothing is [advance]. *)
Lemma iteration_Ok (st st' : ips_state F Mat) :
  (0 ≤ st_iter_counter st)%Z →
  iteration n_x n_ineq func tol verbose st = Ok st' →
  ∃ x_arr sol alpha_p alpha_d,
    st_heap st !! st_x st = Some x_arr
    ∧ spsolve (newton_system func st x_arr).1 (newton_system func st x_arr).2 = Some sol
    ∧ step_calculation (st_z st) (increments n_x func st x_arr sol).1.2 = Ok alpha_p
    ∧ step_calculation (st_mu st) (increments n_x func st x_arr sol).2 = Ok alpha_d
    ∧ (st_iter_counter st + 1 < Z.of_nat (length (st_error_evolution st)))%Z
    ∧ st' = advance n_x n_ineq func tol verbose st x_arr sol alpha_p alpha_d.
Proof.
  intros Hiter. unfold iteration. intros Hit.
  apply bind_Ok in Hit as (x_arr & Hx & Hit). apply deref_Ok in Hx.
  apply bind_Ok in Hit as (sol & Hsol & Hit).
  apply or_raise_Ok in Hsol.
  unfold advance, increments.
  destruct (split sol n_x) as [dx dlam] eqn:Hsplit.
  apply bind_Ok in Hit as (alpha_p & Hp & Hit).
  apply bind_Ok in Hit as (alpha_d & Hd & Hit).
  apply bind_Ok in Hit as (ee & Hee & Hit).
  apply setitem_Ok in Hee as [Hlen ->]; [|lia].
  injection Hit as <-.
  exists x_arr, sol, alpha_p, alpha_d. rewrite Hsplit. cbn.
  repeat split; assumption.
Qed.

(** The converse: when its fallible steps return, so does the iteration. *)
Lemma iteration_advance (st : ips_state F Mat) (x_arr sol : list F) (alpha_p alpha_d : F) :
  st_heap st !! st_x st = Some x_arr →
  spsolve (newton_system func st x_arr).1 (newton_system func st x_arr).2 = Some sol →
  step_calculation (st_z st) (increments n_x func st x_arr sol).1.2 = Ok alpha_p →
  step_calculation (st_mu st) (increments n_x func st x_arr sol).2 = Ok alpha_d →
  (0 ≤ st_iter_counter st + 1 < Z.of_nat (length (st_error_evolution st)))%Z →
  iteration n_x n_ineq func tol verbose st
  = Ok (advance n_x n_ineq func tol verbose st x_arr sol alpha_p alpha_d).
Proof.
  intros Hx Hsol Hp Hd Hlen. unfold iteration, advance, increments in *.
  apply deref_Ok in Hx. rewrite Hx, bind_ret_l.
  unfold newton_system in Hsol. cbn in Hsol. rewrite Hsol. cbn [or_raise]. rewrite bind_ret_l.
  destruct (split sol n_x) as [dx dlam] eqn:Hsplit. cbn in Hp, Hd.
  rewrite Hp, bind_ret_l, Hd, bind_ret_l.
  rewrite setitem_in_range by exact Hlen. reflexivity.
Qed.

(** *** step_calculation reads [dV] at every index of [V] *)

Lemma foldM_Ok_each {A B : Type} (g : A → B → result A) (l : list B) :
  ∀ (a a' : A), foldM g a l = Ok a' → ∀ b, b ∈ l → ∃ a1 a2, g a1 b = Ok a2.
Proof.
  induction l as [|b0 l IH]; intros a a' Hfold b Hb.
  - inversion Hb.
  - cbn in Hfold. apply bind_Ok in Hfold as (a1 & Hg & Hfold).
    apply elem_of_cons in Hb as [->|Hb]; [eauto | eapply IH; eassumption].
Qed.

Lemma step_calculation_Ok_length (V dV : list F) (alpha : F) :
  step_calculation V dV = Ok alpha → length V ≤ length dV.
Proof.
  unfold step_calculation. intros Hstep.
  apply bind_Ok in Hstep as (a & Hfold & _).
  destruct (Nat.le_gt_cases (length V) (length dV)) as [Hle|Hgt]; [exact Hle|].
  assert (Hin : length dV ∈ seq 0 (length V)) by (apply elem_of_seq; lia).
  destruct (foldM_Ok_each _ _ _ _ Hfold _ Hin) as (a1 & a2 & Hbody).
  unfold step_body, index in Hbody.
  rewrite (lookup_ge_None_2 dV (length dV)) in Hbody by lia. discriminate.
Qed.

Lemma length_vadd_scaled (V dV : list F) (alpha : F) :
  length V ≤ length dV → length (vadd V (vscale_r dV alpha)) = length V.
Proof.
  intros Hle. unfold vadd, vscale_r. rewrite length_zip_with, length_fmap. lia.
Qed.

(** *** Invariants of the reachable states *)

Lemma reachable_inv (st : ips_state F Mat) :
  reachable h0 x0 n_x n_eq n_ineq func max_iter tol verbose st →
  (0 ≤ st_iter_counter st ≤ max_iter)%Z
  ∧ (0 ≤ n_ineq)%Z
  ∧ length (st_error_evolution st) = Z.to_nat (max_iter + 1)
  ∧ st_x st = fresh (dom h0)
  ∧ is_Some (st_heap st !! st_x st)
  ∧ (∀ l, l ≠ fresh (dom h0) → st_heap st !! l = h0 !! l)
  ∧ st_z_inv st = diags (sdiv f_one (st_z st))
  ∧ st_mu_diag st = diags (st_mu st)
  ∧ st_e st = replicate (Z.to_nat n_ineq) f_one
  ∧ length (st_z st) = Z.to_nat n_ineq
  ∧ length (st_mu st) = Z.to_nat n_ineq
  ∧ (st_iter_counter st = 0%Z → st_ret st = None)
  ∧ ((0 < st_iter_counter st)%Z → is_Some (st_ret st))
  ∧ st_converged st = (st_error st <=? st_gamma st)
  ∧ is_Some (h0 !! x0).
Proof.
  induction 1 as [st Hinit | st st' Hreach IH Htest Hit].
  - apply init_state_Ok in Hinit as (x0_arr & Hx0 & Hneq & Hnineq & Hmax & ->). cbn.
    rewrite length_insert, !length_replicate, lookup_insert_eq.
    repeat split; try reflexivity; try lia; try (eexists; reflexivity);
      try (eexists; exact Hx0).
    intros l Hl. rewrite lookup_insert_ne by congruence. reflexivity.
  - destruct IH as (Hiter & Hnineq & Hee & Hx & Hxs & Hframe & Hzinv & Hmudiag & He & Hz & Hmu
                    & Hret0 & Hret & Hconv & Hx0).
    unfold loop_test in Htest. apply andb_true_iff in Htest as [_ Hlt%Z.ltb_lt].
    apply iteration_Ok in Hit as (x_arr & sol & alpha_p & alpha_d & Hxa & Hsol & Hp & Hd & Hlen & ->);
      [|lia].
    apply step_calculation_Ok_length in Hp, Hd.
    unfold advance. destruct (increments n_x func st x_arr sol) as [[[dx dlam] dz] dmu]. cbn in *.
    rewrite length_insert, lookup_insert_eq, !length_vadd_scaled by assumption.
    repeat split; try assumption; try reflexivity; try lia; try (eexists; reflexivity).
    intros l Hl. rewrite lookup_insert_ne by congruence. apply Hframe, Hl.
Qed.

(** *** The exceptions of an iteration *)

Lemma foldM_Err_some {A B : Type} (g : A → B → result A) (l : list B) (e : exn) :
  ∀ (a : A), foldM g a l = Err e → ∃ a1 b, g a1 b = Err e.
Proof.
  induction l as [|b0 l IH]; intros a Hfold; [discriminate|].
  cbn in Hfold. apply bind_Err in Hfold as [Hg | (a1 & _ & Hfold)]; eauto.
Qed.

Lemma step_calculation_Err (V dV : list F) (e : exn) :
  step_calculation V dV = Err e → e = IndexError.
Proof.
  unfold step_calculation. intros Hstep.
  apply bind_Err in Hstep as [Hfold | (a & _ & Hstep)]; [|discriminate].
  apply foldM_Err_some in Hfold as (a1 & i & Hbody).
  unfold step_body, index in Hbody.
  destruct (dV !! i) as [dvi|]; cbn in Hbody; [|congruence].
  destruct (dvi <? f_zero); [|discriminate].
  destruct (V !! i); cbn in Hbody; congruence.
Qed.

Lemma setitem_Err (v : list F) (i : Z) (a : F) (e : exn) :
  setitem v i a = Err e → e = IndexError.
Proof. unfold setitem. case_match; congruence. Qed.

(** An iteration raises what the linear solve raises, or an error of
    indexing; it never uses up the fuel of the model. *)
Lemma iteration_Err (st : ips_state F Mat) (e : exn) :
  iteration n_x n_ineq func tol verbose st = Err e →
  e = AttributeError ∨ e = LinAlgError ∨ e = IndexError.
Proof.
  unfold iteration. intros Hit.
  apply bind_Err in Hit as [Hx | (x_arr & _ & Hit)].
  { unfold deref, or_raise in Hx. case_match; [discriminate|]. left. congruence. }
  apply bind_Err in Hit as [Hsol | (sol & _ & Hit)].
  { unfold or_raise in Hsol. case_match; [discriminate|]. right; left. congruence. }
  destruct (split sol n_x) as [dx dlam].
  apply bind_Err in Hit as [Hp | (alpha_p & _ & Hit)].
  { right; right. eapply step_calculation_Err, Hp. }
  apply bind_Err in Hit as [Hd | (alpha_d & _ & Hit)].
  { right; right. eapply step_calculation_Err, Hd. }
  apply bind_Err in Hit as [Hee | (ee & _ & Hit)]; [|discriminate].
  right; right. eapply setitem_Err, Hee.
Qed.

(** *** The loop *)

(** The loop ends in a reachable state, by its own test. *)
Lemma while_loop_Ok (fuel : nat) :
  ∀ st st' : ips_state F Mat,
    reachable h0 x0 n_x n_eq n_ineq func max_iter tol verbose st →
    while_loop n_x n_ineq func max_iter tol verbose fuel st = Ok st' →
    reachable h0 x0 n_x n_eq n_ineq func max_iter tol verbose st'
    ∧ loop_test max_iter st' = false.
Proof.
  induction fuel as [|fuel IH]; intros st st' Hreach Hloop; cbn in Hloop;
    destruct (loop_test max_iter st) eqn:Htest;
    try discriminate; try (injection Hloop as <-; split; assumption).
  apply bind_Ok in Hloop as (st1 & Hit & Hloop).
  eapply IH; [|exact Hloop]. eapply reachable_step; eassumption.
Qed.

(** The fuel [max_iter - iter_counter] is enough. *)
Lemma while_loop_fuel (fuel : nat) :
  ∀ st : ips_state F Mat,
    reachable h0 x0 n_x n_eq n_ineq func max_iter tol verbose st →
    (max_iter - st_iter_counter st ≤ Z.of_nat fuel)%Z →
    while_loop n_x n_ineq func max_iter tol verbose fuel st ≠ Err Diverged.
Proof.
  induction fuel as [|fuel IH]; intros st Hreach Hfuel; cbn;
    destruct (loop_test max_iter st) eqn:Htest; try discriminate.
  - unfold loop_test in Htest. apply andb_true_iff in Htest as [_ Hlt%Z.ltb_lt]. lia.
  - destruct (iteration n_x n_ineq func tol verbose st) as [st1|e] eqn:Hit.
    + rewrite bind_ret_l. apply IH; [eapply reachable_step; eassumption|].
      apply iteration_Ok in Hit as (x_arr & sol & alpha_p & alpha_d & _ & _ & _ & _ & _ & ->).
      * unfold advance. destruct (increments n_x func st x_arr sol) as [[[dx dlam] dz] dmu].
        cbn. lia.
      * apply reachable_inv in Hreach. lia.
    + cbn. intros [= ->]. apply iteration_Err in Hit as [|[|]]; discriminate.
Qed.

(** *** The return *)

Lemma finish_Ok (st : ips_state F Mat) (o : outcome F Mat) :
  finish verbose st = Ok o →
  ∃ x_arr ret,
    st_heap st !! st_x st = Some x_arr
    ∧ st_ret st = Some ret
    ∧ o = mkOutcome
            (mkIpsSolution (st_x st) (st_error st) (st_gamma st) (st_lam st) ret
               (st_converged st) (st_iter_counter st) (st_error_evolution st))
            (st_heap st) (st_stdout st ++ print_solution verbose st x_arr).
Proof.
  unfold finish. intros Hfin. apply bind_Ok in Hfin as (x_arr & Hx%deref_Ok & Hfin).
  destruct (st_ret st) as [ret|]; [|discriminate]. injection Hfin as <-. eauto.
Qed.

(** A call that returns has left the loop in a reachable state, by the test
    of the loop, with [ret] bound. *)
Lemma interior_point_solver_Ok (o : outcome F Mat) :
  interior_point_solver h0 x0 n_x n_eq n_ineq func max_iter tol verbose = Ok o →
  ∃ st x_arr ret,
    reachable h0 x0 n_x n_eq n_ineq func max_iter tol verbose st
    ∧ loop_test max_iter st = false
    ∧ st_heap st !! st_x st = Some x_arr
    ∧ st_ret st = Some ret
    ∧ o = mkOutcome
            (mkIpsSolution (st_x st) (st_error st) (st_gamma st) (st_lam st) ret
               (st_converged st) (st_iter_counter st) (st_error_evolution st))
            (st_heap st) (st_stdout st ++ print_solution verbose st x_arr).
Proof.
  unfold interior_point_solver. intros Hcall.
  apply bind_Ok in Hcall as (st0 & Hinit & Hcall).
  apply bind_Ok in Hcall as (st & Hloop & Hfin).
  apply while_loop_Ok in Hloop as [Hreach Htest]; [|apply reachable_init, Hinit].
  apply finish_Ok in Hfin as (x_arr & ret & Hx & Hret & ->).
  exists st, x_arr, ret. repeat split; assumption.
Qed.

(** After an iteration, [gamma] is what line 272 computes from the [mu] and
    the [z] of the state. *)
Lemma reachable_gamma (st : ips_state F Mat) :
  reachable h0 x0 n_x n_eq n_ineq func max_iter tol verbose st →
  (0 < st_iter_counter st)%Z →
  st_gamma st = py_max (f_tenth * dot (st_mu st) (st_z st) / f_of_int n_ineq) tol.
Proof.
  intros Hreach. destruct Hreach as [st Hinit | st st' Hreach Htest Hit].
  - apply init_state_Ok in Hinit as (x0_arr & _ & _ & _ & _ & ->). cbn. lia.
  - intros _. pose proof (reachable_inv st Hreach) as (Hiter & _).
    apply iteration_Ok in Hit as (x_arr & sol & alpha_p & alpha_d & _ & _ & _ & _ & _ & ->);
      [|lia].
    unfold advance. destruct (increments n_x func st x_arr sol) as [[[dx dlam] dz] dmu].
    reflexivity.
Qed.

(** *** The caller's arrays *)

(** C9.  [interior_point_solver] never writes to the caller's initial point:
    in every state of a call, and in the heap that a call which returns
    leaves, the array at [x0] (and every other array of the caller) holds what
    it held before the call; the iterations work on a copy at a new address,
    which starts with the contents of [x0], and the [x] of the returned
    solution is that new array, not [x0]. *)
Theorem x0_never_mutated (o : outcome F Mat) :
  interior_point_solver h0 x0 n_x n_eq n_ineq func max_iter tol verbose = Ok o →
  is_Some (h0 !! x0)
  ∧ out_heap o !! x0 = h0 !! x0
  ∧ (∀ l, is_Some (h0 !! l) → out_heap o !! l = h0 !! l)
  ∧ sol_x (out_solution o) ≠ x0
  ∧ h0 !! sol_x (out_solution o) = None
  ∧ is_Some (out_heap o !! sol_x (out_solution o))
  ∧ (∀ st, reachable h0 x0 n_x n_eq n_ineq func max_iter tol verbose st →
           st_heap st !! x0 = h0 !! x0 ∧ st_x st = sol_x (out_solution o))
  ∧ (∀ st0, init_state h0 x0 n_eq n_ineq max_iter = Ok st0 →
            st_heap st0 !! st_x st0 = h0 !! x0).
Proof.
  intros Hcall.
  apply interior_point_solver_Ok in Hcall as (st & x_arr & ret & Hreach & _ & Hx & _ & ->).
  pose proof (reachable_inv st Hreach) as
    (_ & _ & _ & Hstx & _ & Hframe & _ & _ & _ & _ & _ & _ & _ & _ & Hx0).
  assert (Hfresh : h0 !! fresh (dom h0) = None).
  { apply not_elem_of_dom, is_fresh. }
  assert (Hold : ∀ l, is_Some (h0 !! l) → l ≠ fresh (dom h0)).
  { intros l [v Hl] ->. congruence. }
  cbn. rewrite Hstx.
  split; [exact Hx0|].
  split; [apply Hframe, Hold, Hx0|].
  split; [intros l Hl; apply Hframe, Hold, Hl|].
  split; [intros Heq; apply (Hold x0 Hx0); symmetry; exact Heq|].
  split; [exact Hfresh|].
  split; [rewrite <- Hstx, Hx; eexists; reflexivity|].
  split.
  - intros st1 Hreach1.
    pose proof (reachable_inv st1 Hreach1) as (_ & _ & _ & Hstx1 & _ & Hframe1 & _).
    split; [apply Hframe1, Hold, Hx0 | exact Hstx1].
  - intros st0 Hinit. apply init_state_Ok in Hinit as (x0_arr & Hx0a & _ & _ & _ & ->).
    cbn. rewrite lookup_insert_eq. symmetry. exact Hx0a.
Qed.

(** *** The update of one iteration *)

(** C5.  In an iteration that raises nothing, with [dx] and [dlam] the two
    parts of the solution of the linear system, the increments are
    [dz = -H - z - Hx.T @ dx] and [dmu = -mu + diag(1/z) @ (gamma * e - mu * dz)],
    [e] being the vector of ones, the steps are
    [alpha_p = step_calculation(z, dz)] and [alpha_d = step_calculation(mu, dmu)],
    and the iteration leaves [x + dx * alpha_p], [z + dz * alpha_p],
    [lam + dlam * alpha_d] and [mu + dmu * alpha_d]. *)
Theorem iteration_update (st st' : ips_state F Mat) :
  reachable h0 x0 n_x n_eq n_ineq func max_iter tol verbose st →
  iteration n_x n_ineq func tol verbose st = Ok st' →
  ∃ x_arr sol dx dlam alpha_p alpha_d,
    st_heap st !! st_x st = Some x_arr
    ∧ spsolve (newton_system func st x_arr).1 (newton_system func st x_arr).2 = Some sol
    ∧ split sol n_x = (dx, dlam)
    ∧ let ret := func x_arr (st_mu st) (st_lam st) in
      let e := replicate (Z.to_nat n_ineq) f_one in
      let dz := vsub (vsub (vneg (r_H ret)) (st_z st)) (mvec (mT (r_Hx ret)) dx) in
      let dmu := vadd (vneg (st_mu st))
                      (mvec (diags (sdiv f_one (st_z st)))
                            (vsub (vscale_l (st_gamma st) e) (vmul (st_mu st) dz))) in
      step_calculation (st_z st) dz = Ok alpha_p
      ∧ step_calculation (st_mu st) dmu = Ok alpha_d
      ∧ st_x st' = st_x st
      ∧ st_heap st' !! st_x st' = Some (vadd x_arr (vscale_r dx alpha_p))
      ∧ st_z st' = vadd (st_z st) (vscale_r dz alpha_p)
      ∧ st_lam st' = vadd (st_lam st) (vscale_r dlam alpha_d)
      ∧ st_mu st' = vadd (st_mu st) (vscale_r dmu alpha_d).
Proof.
  intros Hreach Hit.
  pose proof (reachable_inv st Hreach) as
    (Hiter & _ & _ & _ & _ & _ & Hzinv & _ & He & _).
  apply iteration_Ok in Hit as (x_arr & sol & alpha_p & alpha_d & Hx & Hsol & Hp & Hd & _ & ->);
    [|lia].
  unfold advance. unfold increments in *.
  destruct (split sol n_x) as [dx dlam] eqn:Hsplit. cbn [fst snd] in Hp, Hd.
  rewrite Hzinv, He in Hd.
  exists x_arr, sol, dx, dlam, alpha_p, alpha_d.
  cbn [st_x st_heap st_z st_lam st_mu]. rewrite lookup_insert_eq, Hzinv, He.
  repeat split; try assumption; reflexivity.
Qed.

(** *** A linear solve that raises *)

(** From the first state of a call, the loop runs as it does from any state
    that the call reaches. *)
Lemma while_loop_from_reachable (st0 st : ips_state F Mat) :
  init_state h0 x0 n_eq n_ineq max_iter = Ok st0 →
  reachable h0 x0 n_x n_eq n_ineq func max_iter tol verbose st →
  while_loop n_x n_ineq func max_iter tol verbose (Z.to_nat max_iter) st0
  = while_loop n_x n_ineq func max_iter tol verbose
      (Z.to_nat (max_iter - st_iter_counter st)) st.
Proof.
  intros Hinit Hreach. induction Hreach as [st Hinit' | st st' Hreach IH Htest Hit].
  - rewrite Hinit in Hinit'. injection Hinit' as <-.
    apply init_state_Ok in Hinit as (x0_arr & _ & _ & _ & _ & ->). cbn.
    rewrite Z.sub_0_r. reflexivity.
  - rewrite IH.
    pose proof (reachable_inv st Hreach) as (Hiter & _).
    pose proof Htest as Htest'.
    unfold loop_test in Htest'. apply andb_true_iff in Htest' as [_ Hlt%Z.ltb_lt].
    replace (Z.to_nat (max_iter - st_iter_counter st))
      with (S (Z.to_nat (max_iter - st_iter_counter st'))).
    + cbn. rewrite Htest, Hit. reflexivity.
    + apply iteration_Ok in Hit as (x_arr & sol & alpha_p & alpha_d & _ & _ & _ & _ & _ & ->);
        [|lia].
      unfold advance. destruct (increments n_x func st x_arr sol) as [[[dx dlam] dz] dmu].
      cbn. lia.
Qed.

(** C7 (as amended).  The solver has no handling of a failed linear solve.
    When [spsolve] raises in an iteration, the call ends with that exception:
    it neither goes on nor returns a record.  When [spsolve] returns a
    vector, whatever its entries, the iteration takes it as the step. *)
Theorem linear_solve_failure_propagates (st : ips_state F Mat) (x_arr : list F) :
  reachable h0 x0 n_x n_eq n_ineq func max_iter tol verbose st →
  loop_test max_iter st = true →
  st_heap st !! st_x st = Some x_arr →
  (spsolve (newton_system func st x_arr).1 (newton_system func st x_arr).2 = None →
   interior_point_solver h0 x0 n_x n_eq n_ineq func max_iter tol verbose = Err LinAlgError)
  ∧ (∀ sol alpha_p alpha_d,
       spsolve (newton_system func st x_arr).1 (newton_system func st x_arr).2 = Some sol →
       step_calculation (st_z st) (increments n_x func st x_arr sol).1.2 = Ok alpha_p →
       step_calculation (st_mu st) (increments n_x func st x_arr sol).2 = Ok alpha_d →
       iteration n_x n_ineq func tol verbose st
       = Ok (advance n_x n_ineq func tol verbose st x_arr sol alpha_p alpha_d)).
Proof.
  intros Hreach Htest Hx.
  pose proof (reachable_inv st Hreach) as (Hiter & _ & Hee & _).
  pose proof Htest as Htest'.
  unfold loop_test in Htest'. apply andb_true_iff in Htest' as [_ Hlt%Z.ltb_lt].
  split.
  - intros Hsol.
    assert (Hit : iteration n_x n_ineq func tol verbose st = Err LinAlgError).
    { unfold iteration. apply deref_Ok in Hx. rewrite Hx, bind_ret_l.
      unfold newton_system in Hsol. cbn in Hsol. rewrite Hsol. reflexivity. }
    unfold interior_point_solver.
    destruct (init_state h0 x0 n_eq n_ineq max_iter) as [st0|e0] eqn:Hinit.
    + rewrite bind_ret_l, (while_loop_from_reachable st0 st Hinit Hreach).
      replace (Z.to_nat (max_iter - st_iter_counter st))
        with (S (Z.to_nat (max_iter - st_iter_counter st - 1))) by lia.
      cbn. rewrite Htest, Hit. reflexivity.
    + exfalso. clear -Hreach Hinit.
      induction Hreach as [st Hinit' | st st' Hreach IH _ _]; [congruence | exact IH].
  - intros sol alpha_p alpha_d Hsol Hp Hd.
    apply iteration_advance; try assumption. rewrite Hee. lia.
Qed.

End SolverFacts.

(** ** Verbosity *)

Section Verbosity.
Context {F Mat : Type} `{Scalar F} `{LinAlg F Mat}.
Local Open Scope scalar_scope.

Variable h0 : gmap loc (list F).
Variable x0 : loc.
Variables n_x n_eq n_ineq : Z.
Variable func : list F → list F → list F → IpsFunctionReturn F Mat.
Variable max_iter : Z.
Variable tol : F.

(** Two iterations from states that differ in what was printed, at two levels
    of verbosity, end alike up to what is printed. *)
Lemma iteration_silent (v1 v2 : Z) (st1 st2 : ips_state F Mat) :
  silent st1 = silent st2 →
  silent <$> iteration n_x n_ineq func tol v1 st1
  = silent <$> iteration n_x n_ineq func tol v2 st2.
Proof.
  destruct st1, st2. unfold silent. cbn. intros [= -> -> -> -> -> -> -> -> -> -> -> -> -> -> ->].
  unfold iteration.
  cbn [st_heap st_x st_error st_iter_counter st_f st_gamma st_lam st_mu st_z st_e
       st_z_inv st_mu_diag st_converged st_error_evolution st_ret st_stdout].
  destruct (deref _ _) as [x_arr|]; [|reflexivity]. rewrite !bind_ret_l.
  destruct (or_raise _ _) as [sol|]; [|reflexivity]. rewrite !bind_ret_l.
  destruct (split sol n_x) as [dx dlam].
  repeat match goal with
         | |- context [step_calculation ?V ?dV ≫= _] =>
             destruct (step_calculation V dV) as [?|]; [|reflexivity]; rewrite !bind_ret_l
         end.
  match goal with
  | |- context [setitem ?v ?i ?a] => destruct (setitem v i a) as [ee|]; reflexivity
  end.
Qed.

Lemma loop_test_silent (st1 st2 : ips_state F Mat) :
  silent st1 = silent st2 → loop_test max_iter st1 = loop_test max_iter st2.
Proof.
  destruct st1, st2. unfold silent, loop_test. cbn. intros [= ]. subst. reflexivity.
Qed.

Lemma while_loop_silent (v1 v2 : Z) (fuel : nat) :
  ∀ st1 st2 : ips_state F Mat,
    silent st1 = silent st2 →
    silent <$> while_loop n_x n_ineq func max_iter tol v1 fuel st1
    = silent <$> while_loop n_x n_ineq func max_iter tol v2 fuel st2.
Proof.
  induction fuel as [|fuel IH]; intros st1 st2 Hsil; cbn;
    rewrite (loop_test_silent st1 st2 Hsil); destruct (loop_test max_iter st2);
    try reflexivity; try (cbn; rewrite Hsil; reflexivity).
  pose proof (iteration_silent v1 v2 st1 st2 Hsil) as Hit.
  destruct (iteration n_x n_ineq func tol v1 st1) as [st1'|e1],
           (iteration n_x n_ineq func tol v2 st2) as [st2'|e2];
    cbn in Hit; try discriminate; rewrite ?bind_ret_l.
  - apply IH. congruence.
  - exact Hit.
Qed.

Lemma finish_silent (v1 v2 : Z) (st1 st2 : ips_state F Mat) :
  silent st1 = silent st2 →
  numerical_content (finish v1 st1) = numerical_content (finish v2 st2).
Proof.
  destruct st1, st2. unfold silent. cbn. intros [= ]. subst.
  unfold finish, numerical_content. cbn.
  destruct (deref _ _) as [x_arr|]; [|reflexivity]. rewrite !bind_ret_l.
  case_match; reflexivity.
Qed.

(** C8.  Two calls that differ in [verbose] alone end alike: both raise the
    same exception, or both return, with the same solution record (the same
    [x], [error], [gamma], [lam], [structs], [converged], [iterations] and
    [error_evolution]) and the same arrays in the heap. *)
Theorem verbose_only_prints (v1 v2 : Z) :
  numerical_content (interior_point_solver h0 x0 n_x n_eq n_ineq func max_iter tol v1)
  = numerical_content (interior_point_solver h0 x0 n_x n_eq n_ineq func max_iter tol v2).
Proof.
  unfold interior_point_solver.
  destruct (init_state h0 x0 n_eq n_ineq max_iter) as [st0|e0]; [|reflexivity].
  rewrite !bind_ret_l.
  pose proof (while_loop_silent v1 v2 (Z.to_nat max_iter) st0 st0 eq_refl) as Hloop.
  destruct (while_loop n_x n_ineq func max_iter tol v1 (Z.to_nat max_iter) st0) as [st1|e1],
           (while_loop n_x n_ineq func max_iter tol v2 (Z.to_nat max_iter) st0) as [st2|e2];
    cbn in Hloop; try discriminate; rewrite ?bind_ret_l.
  - apply finish_silent. congruence.
  - cbn. congruence.
Qed.

End Verbosity.

(** ** Termination *)

Section Termination.
Context {F Mat : Type} `{Scalar F} `{LinAlg F Mat}.
Local Open Scope scalar_scope.

Variable h0 : gmap loc (list F).
Variable x0 : loc.
Variables n_x n_eq n_ineq : Z.
Variable func : list F → list F → list F → IpsFunctionReturn F Mat.
Variable max_iter : Z.
Variable tol : F.
Variable verbose : Z.

(** Only the first state of a call has made no iteration. *)
Lemma reachable_zero (st : ips_state F Mat) :
  reachable h0 x0 n_x n_eq n_ineq func max_iter tol verbose st →
  st_iter_counter st = 0%Z →
  init_state h0 x0 n_eq n_ineq max_iter = Ok st.
Proof.
  intros Hreach. destruct Hreach as [st Hinit | st st' Hreach Htest Hit]; [intros _; exact Hinit|].
  pose proof (reachable_inv _ _ _ _ _ _ _ _ _ st Hreach) as (Hiter & _).
  apply iteration_Ok in Hit as (x_arr & sol & alpha_p & alpha_d & _ & _ & _ & _ & _ & ->); [|lia].
  unfold advance. destruct (increments n_x func st x_arr sol) as [[[dx dlam] dz] dmu].
  cbn. lia.
Qed.

(** The fuel [max_iter] that [interior_point_solver] gives its loop is never
    used up: a call ends by the test of the loop or by an exception of
    Python. *)
Lemma interior_point_solver_fuel :
  interior_point_solver h0 x0 n_x n_eq n_ineq func max_iter tol verbose ≠ Err Diverged.
Proof.
  unfold interior_point_solver. intros Hcall.
  apply bind_Err in Hcall as [Hinit | (st0 & Hinit & Hcall)].
  { unfold init_state in Hinit.
    repeat (apply bind_Err in Hinit as [Hinit | (? & _ & Hinit)];
            [unfold deref, or_raise, np_ones, np_zeros, setitem in Hinit;
             repeat case_match; discriminate|]).
    discriminate. }
  apply bind_Err in Hcall as [Hloop | (st & _ & Hfin)].
  - revert Hloop.
    apply (while_loop_fuel h0 x0 n_x n_eq n_ineq func max_iter tol verbose
             (Z.to_nat max_iter) st0 (reachable_init _ _ _ _ _ _ _ _ _ st0 Hinit)).
    apply init_state_Ok in Hinit as (? & _ & _ & _ & Hmax & ->). cbn. lia.
  - unfold finish in Hfin. apply bind_Err in Hfin as [Hx | (? & _ & Hfin)].
    + unfold deref, or_raise in Hx. case_match; discriminate.
    + case_match; discriminate.
Qed.

(** A call that returns has made an iteration, and at most [max_iter]; its
    [converged] is the last test [error <= gamma], and is true unless the
    iterations are used up. *)
Lemma interior_point_solver_iterations (o : outcome F Mat) :
  interior_point_solver h0 x0 n_x n_eq n_ineq func max_iter tol verbose = Ok o →
  (1 ≤ sol_iterations (out_solution o) ≤ max_iter)%Z
  ∧ sol_converged (out_solution o)
    = (sol_error (out_solution o) <=? sol_gamma (out_solution o))
  ∧ (sol_converged (out_solution o) = false → sol_iterations (out_solution o) = max_iter).
Proof.
  intros Hcall.
  apply interior_point_solver_Ok in Hcall as (st & x_arr & ret & Hreach & Htest & _ & Hret & ->).
  pose proof (reachable_inv _ _ _ _ _ _ _ _ _ st Hreach) as
    (Hiter & _ & _ & _ & _ & _ & _ & _ & _ & _ & _ & Hret0 & _ & Hconv & _).
  cbn. repeat split; try lia; try exact Hconv.
  - destruct (Z.eq_dec (st_iter_counter st) 0%Z) as [H0i|]; [|lia].
    rewrite (Hret0 H0i) in Hret. discriminate.
  - intros Hfalse. unfold loop_test in Htest. rewrite Hfalse in Htest. cbn in Htest.
    apply Z.ltb_ge in Htest. lia.
Qed.

(** *** A call on data of its dimensions *)







(** Without an iteration there is nothing to return. *)
Lemma interior_point_solver_no_iteration :
  is_Some (h0 !! x0) → (0 ≤ n_eq)%Z → (0 ≤ n_ineq)%Z → (max_iter ≤ 0)%Z →
  interior_point_solver h0 x0 n_x n_eq n_ineq func max_iter tol verbose
  = Err (if (max_iter =? 0)%Z then UnboundLocalError
         else if (max_iter =? -1)%Z then IndexError
              else ValueError).
Proof.
  intros [x0_arr Hx0] Hneq Hnineq Hmax.
  destruct (Z.eqb_spec max_iter 0) as [->|Hne0].
  - destruct (init_state_total h0 x0 n_eq n_ineq 0 x0_arr Hx0 Hneq Hnineq) as [st0 Hinit];
      [lia|].
    unfold interior_point_solver. rewrite Hinit, bind_ret_l.
    apply init_state_Ok in Hinit as (x0_arr' & _ & _ & _ & _ & ->).
    change (Z.to_nat 0) with O. cbn [while_loop]. unfold loop_test.
    cbn [st_converged st_iter_counter].
    rewrite Z.ltb_irrefl, andb_false_r, bind_ret_l.
    unfold finish, deref. cbn [st_heap st_x st_ret]. rewrite lookup_insert_eq. reflexivity.
  - unfold interior_point_solver, init_state, deref, np_ones. rewrite Hx0. cbn [or_raise].
    destruct (Z.ltb_spec n_eq 0); [lia|]. destruct (Z.ltb_spec n_ineq 0); [lia|].
    rewrite !bind_ret_l. unfold np_zeros.
    destruct (Z.eqb_spec max_iter (-1)) as [->|Hne1].
    + reflexivity.
    + destruct (Z.ltb_spec (max_iter + 1) 0); [reflexivity | lia].
Qed.

End Termination.

(** ** Binary64 *)

(** *** Comparisons *)

Lemma SFcompare_antisym (x y : spec_float) :
  SFcompare y x = option_map CompOpp (SFcompare x y).
Proof.
  destruct x as [sx| sx | | sx mx ex], y as [sy | sy | | sy my ey]; cbn;
    try reflexivity; try (destruct sx; reflexivity); try (destruct sy; reflexivity);
    try (destruct sx, sy; reflexivity).
  destruct sx, sy; cbn; try reflexivity;
    rewrite (Z.compare_antisym ex ey); destruct (ex ?= ey)%Z; cbn; try reflexivity;
    change (PosDef.Pos.compare_cont Eq my mx) with (Pos.compare my mx);
    change (PosDef.Pos.compare_cont Eq mx my) with (Pos.compare mx my);
    rewrite (Pos.compare_antisym mx my); reflexivity.
Qed.

Lemma SFcompare_refl (x : spec_float) :
  SFcompare x x = Some Eq ∨ SFcompare x x = None.
Proof.
  destruct x as [sx| sx | | sx mx ex]; cbn; auto.
  - destruct sx; auto.
  - left. destruct sx; rewrite Z.compare_refl;
      change (PosDef.Pos.compare_cont Eq mx mx) with (Pos.compare mx mx);
      rewrite Pos.compare_refl; reflexivity.
Qed.

Lemma SFcompare_None (x y : spec_float) :
  SFcompare x y = None → x = S754_nan ∨ y = S754_nan.
Proof.
  destruct x as [sx| sx | | sx mx ex], y as [sy | sy | | sy my ey]; cbn;
    auto; discriminate.
Qed.

Lemma is_nan_false (x : float) : PrimFloat.is_nan x = false → Prim2SF x ≠ S754_nan.
Proof.
  unfold PrimFloat.is_nan. rewrite FloatAxioms.eqb_spec. intros Hnan Heq.
  rewrite Heq in Hnan. discriminate.
Qed.

Lemma ltb_nan_l (x : float) : PrimFloat.ltb PrimFloat.nan x = false.
Proof. rewrite FloatAxioms.ltb_spec. reflexivity. Qed.

Lemma leb_nan_r (x : float) : PrimFloat.leb x PrimFloat.nan = false.
Proof.
  rewrite FloatAxioms.leb_spec. change (Prim2SF PrimFloat.nan) with S754_nan.
  destruct (Prim2SF x) as [[|]|[|]| |[|] mx ex]; reflexivity.
Qed.

Lemma ltb_irrefl (x : float) : PrimFloat.ltb x x = false.
Proof.
  rewrite FloatAxioms.ltb_spec. unfold SFltb.
  destruct (SFcompare_refl (Prim2SF x)) as [-> | ->]; reflexivity.
Qed.

Lemma not_ltb_leb (x y : float) :
  PrimFloat.is_nan x = false → PrimFloat.is_nan y = false →
  PrimFloat.ltb x y = false → PrimFloat.leb y x = true.
Proof.
  intros Hx%is_nan_false Hy%is_nan_false. rewrite FloatAxioms.ltb_spec, FloatAxioms.leb_spec.
  unfold SFltb, SFleb. rewrite (SFcompare_antisym (Prim2SF x) (Prim2SF y)).
  destruct (SFcompare (Prim2SF x) (Prim2SF y)) as [[| |]|] eqn:Hcmp; cbn;
    try reflexivity; try discriminate.
  intros _. apply SFcompare_None in Hcmp as [|]; contradiction.
Qed.

Lemma leb_refl (x : float) : PrimFloat.is_nan x = false → PrimFloat.leb x x = true.
Proof. intros Hx. apply not_ltb_leb; [exact Hx | exact Hx | apply ltb_irrefl]. Qed.

(** Python's [max(q, tol)] is never below [tol], and is at least [tol] when
    neither is NaN. *)
Lemma py_max_floor (q tol : float) :
  PrimFloat.ltb (py_max q tol) tol = false
  ∧ (PrimFloat.is_nan q = false → PrimFloat.is_nan tol = false →
     PrimFloat.leb tol (py_max q tol) = true).
Proof.
  unfold py_max. cbn [f_ltb float_scalar].
  destruct (PrimFloat.ltb q tol) eqn:Hlt; split.
  - apply ltb_irrefl.
  - intros _ Htol. apply leb_refl, Htol.
  - exact Hlt.
  - intros Hq Htol. apply not_ltb_leb; assumption.
Qed.

(** *** NaN *)

Lemma mul_nan_l (a : float) : PrimFloat.mul PrimFloat.nan a = PrimFloat.nan.
Proof. apply Prim2SF_inj. rewrite mul_spec. reflexivity. Qed.

Lemma add_nan_r (a : float) : PrimFloat.add a PrimFloat.nan = PrimFloat.nan.
Proof.
  apply Prim2SF_inj. rewrite add_spec. change (Prim2SF PrimFloat.nan) with S754_nan.
  destruct (Prim2SF a) as [[|]|[|]| |[|] ma ea]; reflexivity.
Qed.

(** The update [V += dV * alpha] puts a NaN wherever the increment has one,
    whatever the step [alpha]. *)
Lemma nan_increment_enters (V dV : list float) (alpha v : float) (i : nat) :
  V !! i = Some v → dV !! i = Some PrimFloat.nan →
  vadd V (vscale_r dV alpha) !! i = Some PrimFloat.nan.
Proof.
  intros Hv Hdv. unfold vadd, vscale_r.
  apply lookup_zip_with_Some. exists v, (PrimFloat.mul PrimFloat.nan alpha).
  rewrite list_lookup_fmap, Hdv. cbn [f_add f_mul float_scalar].
  rewrite mul_nan_l, add_nan_r.
  split; [reflexivity|]. split; [exact Hv|]. cbn. rewrite mul_nan_l. reflexivity.
Qed.

(** *** Comparisons and rounding *)

Lemma SFleb_trans (x y z : spec_float) :
  SFleb x y = true → SFleb y z = true → SFleb x z = true.
Proof.
  unfold SFleb.
  destruct x as [[|]|[|]| |[|] mx ex], y as [[|]|[|]| |[|] my ey], z as [[|]|[|]| |[|] mz ez];
    cbn; try reflexivity; try discriminate;
    change (PosDef.Pos.compare_cont Eq mx my) with (Pos.compare mx my);
    change (PosDef.Pos.compare_cont Eq my mz) with (Pos.compare my mz);
    change (PosDef.Pos.compare_cont Eq mx mz) with (Pos.compare mx mz);
    destruct (Z.compare_spec ex ey), (Z.compare_spec ey ez), (Z.compare_spec ex ez);
    try lia; try reflexivity; try discriminate;
    destruct (Pos.compare_spec mx my), (Pos.compare_spec my mz), (Pos.compare_spec mx mz);
    cbn; try lia; try reflexivity; try discriminate.
Qed.

Lemma leb_trans (x y z : float) :
  PrimFloat.leb x y = true → PrimFloat.leb y z = true → PrimFloat.leb x z = true.
Proof. rewrite !FloatAxioms.leb_spec. apply SFleb_trans. Qed.

Lemma ltb_leb (x y : float) : PrimFloat.ltb x y = true → PrimFloat.leb x y = true.
Proof.
  rewrite FloatAxioms.ltb_spec, FloatAxioms.leb_spec. unfold SFltb, SFleb.
  destruct (SFcompare (Prim2SF x) (Prim2SF y)) as [[| |]|]; congruence.
Qed.

Lemma is_nan_true (x : float) : PrimFloat.is_nan x = true → Prim2SF x = S754_nan.
Proof.
  unfold PrimFloat.is_nan. rewrite FloatAxioms.eqb_spec. unfold SFeqb. intros Hnan.
  destruct (SFcompare_refl (Prim2SF x)) as [Heq | Hnone].
  - rewrite Heq in Hnan. discriminate.
  - apply SFcompare_None in Hnone as [|]; assumption.
Qed.

Lemma is_nan_abs (x : float) : PrimFloat.is_nan (PrimFloat.abs x) = PrimFloat.is_nan x.
Proof.
  unfold PrimFloat.is_nan. rewrite !FloatAxioms.eqb_spec, abs_spec.
  destruct (Prim2SF x) as [[|]|[|]| |[|] mx ex]; cbn; try reflexivity;
    rewrite !Z.compare_refl;
    change (PosDef.Pos.compare_cont Eq mx mx) with (Pos.compare mx mx);
    rewrite !Pos.compare_refl; reflexivity.
Qed.

Lemma ltb_nan_r (x y : float) : PrimFloat.is_nan y = true → PrimFloat.ltb x y = false.
Proof.
  intros Hy%is_nan_true. rewrite FloatAxioms.ltb_spec, Hy.
  destruct (Prim2SF x) as [[|]|[|]| |[|] mx ex]; reflexivity.
Qed.

Lemma not_nan_is_nan (x : float) : Prim2SF x ≠ S754_nan → PrimFloat.is_nan x = false.
Proof.
  intros Hx. unfold PrimFloat.is_nan. rewrite FloatAxioms.eqb_spec. unfold SFeqb.
  destruct (SFcompare_refl (Prim2SF x)) as [-> | Hnone]; [reflexivity|].
  apply SFcompare_None in Hnone as [|]; contradiction.
Qed.

Lemma shr_1_nonneg (mrs : shr_record) : (0 ≤ shr_m mrs)%Z → (0 ≤ shr_m (shr_1 mrs))%Z.
Proof. destruct mrs as [[|[p|p|]|p] r s]; cbn; lia. Qed.

Lemma iter_shr_1_nonneg (p : positive) :
  ∀ mrs : shr_record, (0 ≤ shr_m mrs)%Z → (0 ≤ shr_m (@SpecFloat.iter_pos shr_record shr_1 p mrs))%Z.
Proof.
  induction p as [p IH|p IH|]; intros mrs Hm; cbn [SpecFloat.iter_pos].
  - apply IH, IH, shr_1_nonneg, Hm.
  - apply IH, IH, Hm.
  - apply shr_1_nonneg, Hm.
Qed.

Lemma shr_nonneg (mrs : shr_record) (e n : Z) :
  (0 ≤ shr_m mrs)%Z → (0 ≤ shr_m (shr mrs e n).1)%Z.
Proof.
  intros Hm. destruct n as [|p|p]; cbn [shr fst]; try exact Hm.
  apply iter_shr_1_nonneg, Hm.
Qed.

Lemma shr_fexp_nonneg (prec emax m e : Z) (l : location) :
  (0 ≤ m)%Z → (0 ≤ shr_m (shr_fexp prec emax m e l).1)%Z.
Proof.
  intros Hm. unfold shr_fexp. apply shr_nonneg.
  destruct l as [|[| |]]; exact Hm.
Qed.

Lemma round_nearest_even_nonneg (m : Z) (l : location) :
  (0 ≤ m)%Z → (0 ≤ round_nearest_even m l)%Z.
Proof.
  intros Hm. destruct l as [|[| |]]; cbn; try lia. destruct (Z.even m); lia.
Qed.

Lemma binary_round_aux_not_nan (prec emax : Z) (sx : bool) (mx ex : Z) (lx : location) :
  (0 ≤ mx)%Z → binary_round_aux prec emax sx mx ex lx ≠ S754_nan.
Proof.
  intros Hm. unfold binary_round_aux.
  pose proof (shr_fexp_nonneg prec emax mx ex lx Hm) as H1.
  destruct (shr_fexp prec emax mx ex lx) as [mrs' e']. cbn [fst] in H1.
  pose proof (shr_fexp_nonneg prec emax _ e' loc_Exact
                (round_nearest_even_nonneg (shr_m mrs') (loc_of_shr_record mrs') H1)) as H2.
  destruct (shr_fexp prec emax _ e' loc_Exact) as [mrs'' e'']. cbn [fst] in H2.
  destruct (shr_m mrs'') as [|m|m]; [discriminate | | lia].
  destruct (e'' <=? emax - prec)%Z; discriminate.
Qed.

(** The product of a finite number that is not zero and of a number that is
    not NaN is not NaN. *)
Lemma mul_finite_not_nan (c a : float) (s : bool) (m : positive) (e : Z) :
  Prim2SF c = S754_finite s m e →
  PrimFloat.is_nan a = false → PrimFloat.is_nan (PrimFloat.mul c a) = false.
Proof.
  intros Hc Ha%is_nan_false. apply not_nan_is_nan. rewrite mul_spec, Hc.
  destruct (Prim2SF a) as [sa|sa| |sa ma ea]; try discriminate; [contradiction|].
  apply binary_round_aux_not_nan. lia.
Qed.

(** [min] keeps NaN out: the minimum that the loop builds from 1.0 is not
    NaN, whatever the ratios. *)
Lemma fold_py_min_not_nan (l : list float) :
  ∀ a : float, PrimFloat.is_nan a = false →
               PrimFloat.is_nan (fold_left py_min l a) = false.
Proof.
  induction l as [|r l IH]; intros a Ha; [exact Ha|].
  cbn [fold_left]. apply IH. unfold py_min. cbn [f_ltb float_scalar].
  destruct (PrimFloat.ltb r a) eqn:Hlt; [|exact Ha].
  destruct (PrimFloat.is_nan r) eqn:Hr; [|reflexivity].
  apply is_nan_true in Hr. rewrite FloatAxioms.ltb_spec, Hr in Hlt. discriminate.
Qed.

(** *** binary64 as rationals *)

Lemma digits2_pos_bounds (m : positive) :
  (2 ^ (Zpos (digits2_pos m) - 1) ≤ Zpos m < 2 ^ Zpos (digits2_pos m))%Z.
Proof.
  induction m as [m IH|m IH|]; cbn [digits2_pos]; [| |cbn; lia].
  - rewrite Pos2Z.inj_succ.
    replace (Z.succ (Zpos (digits2_pos m)) - 1)%Z with (Z.succ (Zpos (digits2_pos m) - 1)) by lia.
    rewrite !Z.pow_succ_r by lia. lia.
  - rewrite Pos2Z.inj_succ.
    replace (Z.succ (Zpos (digits2_pos m)) - 1)%Z with (Z.succ (Zpos (digits2_pos m) - 1)) by lia.
    rewrite !Z.pow_succ_r by lia. lia.
Qed.

Lemma shr_1_div (mrs : shr_record) :
  (0 ≤ shr_m mrs)%Z → shr_m (shr_1 mrs) = (shr_m mrs / 2)%Z.
Proof.
  intros Hm. rewrite <- Z.div2_div.
  destruct mrs as [[|[p|p|]|p] r s]; cbn [shr_m shr_1] in *; try reflexivity; lia.
Qed.

Lemma iter_shr_1_div (p : positive) :
  ∀ mrs : shr_record,
    (0 ≤ shr_m mrs)%Z →
    shr_m (@SpecFloat.iter_pos shr_record shr_1 p mrs) = (shr_m mrs / 2 ^ Zpos p)%Z.
Proof.
  induction p as [p IH|p IH|]; intros mrs Hm; cbn [SpecFloat.iter_pos].
  - rewrite IH by (apply iter_shr_1_nonneg, shr_1_nonneg, Hm).
    rewrite IH by (apply shr_1_nonneg, Hm). rewrite shr_1_div by exact Hm.
    assert (Hp : (0 < 2 ^ Zpos p)%Z) by (apply Z.pow_pos_nonneg; lia).
    rewrite !Z.div_div by lia. f_equal.
    rewrite <- Z.pow_add_r by lia. change 2%Z with (2 ^ 1)%Z at 1.
    rewrite <- Z.pow_add_r by lia. f_equal. lia.
  - rewrite IH by (apply iter_shr_1_nonneg, Hm). rewrite IH by exact Hm.
    assert (Hp : (0 < 2 ^ Zpos p)%Z) by (apply Z.pow_pos_nonneg; lia).
    rewrite Z.div_div by lia. f_equal.
    rewrite <- Z.pow_add_r by lia. f_equal. lia.
  - rewrite shr_1_div by exact Hm. reflexivity.
Qed.

Lemma shr_record_of_loc_m (m : Z) (l : location) : shr_m (shr_record_of_loc m l) = m.
Proof. destruct l as [|[| |]]; reflexivity. Qed.

(** Above the least exponent, the shift of the rounding keeps a digit. *)
Lemma shr_fexp_pos (prec emax m e : Z) (l : location) :
  (0 < prec)%Z → (0 < m)%Z → (SpecFloat.emin prec emax ≤ e)%Z →
  (0 < shr_m (shr_fexp prec emax m e l).1)%Z ∧ (SpecFloat.emin prec emax ≤ (shr_fexp prec emax m e l).2)%Z.
Proof.
  intros Hprec Hm He. unfold shr_fexp, shr.
  destruct m as [|p|p]; try lia. cbn [Zdigits2].
  pose proof (digits2_pos_bounds p) as [Hlow _].
  set (d := Zpos (digits2_pos p)) in *.
  assert (Hd : (1 ≤ d)%Z) by (unfold d; lia).
  assert (Hn : (SpecFloat.fexp prec emax (d + e) - e ≤ d - 1)%Z)
    by (unfold SpecFloat.fexp, SpecFloat.emin in *; lia).
  destruct (SpecFloat.fexp prec emax (d + e) - e)%Z as [|q|q] eqn:Hq; cbn [fst snd];
    rewrite ?shr_record_of_loc_m; try (split; lia).
  rewrite iter_shr_1_div by (rewrite shr_record_of_loc_m; lia).
  rewrite shr_record_of_loc_m. split; [|lia].
  apply Z.div_str_pos. split; [apply Z.pow_pos_nonneg; lia|].
  transitivity (2 ^ (d - 1))%Z; [apply Z.pow_le_mono_r; lia | exact Hlow].
Qed.

Lemma round_nearest_even_pos (m : Z) (l : location) :
  (0 < m)%Z → (0 < round_nearest_even m l)%Z.
Proof.
  intros Hm. destruct l as [|[| |]]; cbn; try lia. destruct (Z.even m); lia.
Qed.

(** Rounding keeps the sign: a positive mantissa above the least exponent
    is rounded to a finite number or to an infinity of the sign, and a
    mantissa that is not negative also to a zero of the sign. *)
Lemma binary_round_aux_pos (prec emax : Z) (sx : bool) (mx ex : Z) (lx : location) :
  (0 < prec)%Z → (0 < mx)%Z → (SpecFloat.emin prec emax ≤ ex)%Z →
  binary_round_aux prec emax sx mx ex lx = S754_infinity sx
  ∨ ∃ m e, binary_round_aux prec emax sx mx ex lx = S754_finite sx m e.
Proof.
  intros Hprec Hm He. unfold binary_round_aux.
  pose proof (shr_fexp_pos prec emax mx ex lx Hprec Hm He) as [H1 H1e].
  destruct (shr_fexp prec emax mx ex lx) as [mrs' e']. cbn [fst snd] in H1, H1e.
  pose proof (shr_fexp_pos prec emax _ e' loc_Exact Hprec
                (round_nearest_even_pos (shr_m mrs') (loc_of_shr_record mrs') H1) H1e)
    as [H2 _].
  destruct (shr_fexp prec emax _ e' loc_Exact) as [mrs'' e'']. cbn [fst] in H2.
  destruct (shr_m mrs'') as [|m|m]; try lia.
  destruct (e'' <=? emax - prec)%Z; [right; eauto | left; reflexivity].
Qed.

Lemma binary_round_aux_sign (prec emax : Z) (sx : bool) (mx ex : Z) (lx : location) :
  (0 ≤ mx)%Z →
  binary_round_aux prec emax sx mx ex lx = S754_zero sx
  ∨ binary_round_aux prec emax sx mx ex lx = S754_infinity sx
  ∨ ∃ m e, binary_round_aux prec emax sx mx ex lx = S754_finite sx m e.
Proof.
  intros Hm. unfold binary_round_aux.
  pose proof (shr_fexp_nonneg prec emax mx ex lx Hm) as H1.
  destruct (shr_fexp prec emax mx ex lx) as [mrs' e']. cbn [fst] in H1.
  pose proof (shr_fexp_nonneg prec emax _ e' loc_Exact
                (round_nearest_even_nonneg (shr_m mrs') (loc_of_shr_record mrs') H1)) as H2.
  destruct (shr_fexp prec emax _ e' loc_Exact) as [mrs'' e'']. cbn [fst] in H2.
  destruct (shr_m mrs'') as [|m|m]; [left; reflexivity | | lia].
  destruct (e'' <=? emax - prec)%Z; [right; right; eauto | right; left; reflexivity].
Qed.

Lemma shl_align_exponent (prec emax : Z) (m : positive) (e : Z) :
  (SpecFloat.emin prec emax ≤ e)%Z →
  (SpecFloat.emin prec emax ≤ (shl_align m e (SpecFloat.fexp prec emax (Zpos (digits2_pos m) + e))).2)%Z.
Proof.
  intros He. unfold shl_align.
  destruct (SpecFloat.fexp prec emax (Zpos (digits2_pos m) + e) - e)%Z eqn:Hd; cbn [snd]; try lia.
  unfold SpecFloat.fexp, SpecFloat.emin. lia.
Qed.

Lemma binary_round_pos (prec emax : Z) (m : positive) (e : Z) :
  (0 < prec)%Z → (SpecFloat.emin prec emax ≤ e)%Z →
  binary_round prec emax false m e = S754_infinity false
  ∨ ∃ m' e', binary_round prec emax false m e = S754_finite false m' e'.
Proof.
  intros Hprec He. unfold binary_round.
  pose proof (shl_align_exponent prec emax m e He) as Hez.
  destruct (shl_align m e (SpecFloat.fexp prec emax (Zpos (digits2_pos m) + e))) as [mz ez].
  apply binary_round_aux_pos; [exact Hprec | lia | exact Hez].
Qed.

(** *** The value of an aligned mantissa *)

Lemma Qpow2_pos (e : Z) : (0 < (2 # 1) ^ e)%Q.
Proof. apply Qpower_0_lt. reflexivity. Qed.

Lemma Qpow2_aligned (m e ez : Z) :
  (ez ≤ e)%Z →
  (inject_Z m * (2 # 1) ^ e == inject_Z (m * 2 ^ (e - ez)) * (2 # 1) ^ ez)%Q.
Proof.
  intros Hle. replace e with ((e - ez) + ez)%Z at 1 by lia.
  rewrite Qpower_plus by discriminate.
  rewrite inject_Z_mult, (Zpower_Qpower 2 (e - ez)) by lia.
  change (inject_Z 2) with (2 # 1)%Q. ring.
Qed.

Lemma iter_xO_value (d : positive) (m : positive) :
  Zpos (Pos.iter xO m d) = (Zpos m * 2 ^ Zpos d)%Z.
Proof.
  induction d as [|d IH] using Pos.peano_ind.
  - cbn. lia.
  - rewrite Pos.iter_succ, Pos2Z.inj_xO, IH, Pos2Z.inj_succ, Z.pow_succ_r by lia. ring.
Qed.

Lemma shl_align_value (m : positive) (e ez : Z) :
  (ez ≤ e)%Z → Zpos (shl_align m e ez).1 = (Zpos m * 2 ^ (e - ez))%Z.
Proof.
  intros Hle. unfold shl_align.
  destruct (ez - e)%Z as [|d|d] eqn:Hd; cbn [fst]; try lia.
  - replace (e - ez)%Z with 0%Z by lia. lia.
  - rewrite iter_xO_value. f_equal. f_equal. lia.
Qed.

(** *** Valid numbers *)

Lemma valid_finite (prec emax : Z) (s : bool) (m : positive) (e : Z) :
  SpecFloat.valid_binary prec emax (S754_finite s m e) = true →
  (SpecFloat.emin prec emax ≤ e)%Z
  ∧ (Zpos (digits2_pos m) ≤ prec)%Z
  ∧ (e = SpecFloat.emin prec emax ∨ Zpos (digits2_pos m) = prec).
Proof.
  cbn [SpecFloat.valid_binary]. unfold bounded, canonical_mantissa, SpecFloat.fexp.
  intros [Hc _]%andb_true_iff. apply Z.eqb_eq in Hc. lia.
Qed.

(** *** The order of binary64 and the order of the rationals *)

Lemma SFcompare_value (prec emax : Z) (mx my : positive) (ex ey : Z) :
  (0 < prec)%Z →
  SpecFloat.valid_binary prec emax (S754_finite false mx ex) = true →
  SpecFloat.valid_binary prec emax (S754_finite false my ey) = true →
  match SFcompare (S754_finite false mx ex) (S754_finite false my ey) with
  | Some Lt => (SF2Q (S754_finite false mx ex) < SF2Q (S754_finite false my ey))%Q
  | Some Eq => (SF2Q (S754_finite false mx ex) == SF2Q (S754_finite false my ey))%Q
  | _ => True
  end.
Proof.
  intros Hprec (Hex & Hdx & _)%valid_finite (Hey & Hdy & Hny)%valid_finite.
  cbn [SFcompare SF2Q cond_Zopp].
  destruct (Z.compare_spec ex ey) as [Heq | Hlt | Hgt]; [| | exact I].
  - subst ey. change (PosDef.Pos.compare_cont Eq mx my) with (Pos.compare mx my).
    destruct (Pos.compare_spec mx my) as [Hm | Hm | Hm]; [subst; reflexivity | | exact I].
    apply Qmult_lt_r; [apply Qpow2_pos|]. rewrite <- Zlt_Qlt. lia.
  - rewrite (Qpow2_aligned (Zpos my) ey ex) by lia.
    apply Qmult_lt_r; [apply Qpow2_pos|]. rewrite <- Zlt_Qlt.
    pose proof (digits2_pos_bounds mx) as [_ Hmx].
    pose proof (digits2_pos_bounds my) as [Hmy _].
    assert (Hdy' : Zpos (digits2_pos my) = prec) by lia.
    rewrite Hdy' in Hmy.
    assert (H1 : (2 ^ Zpos (digits2_pos mx) ≤ 2 ^ prec)%Z)
      by (apply Z.pow_le_mono_r; lia).
    assert (H2 : (2 ^ 1 ≤ 2 ^ (ey - ex))%Z) by (apply Z.pow_le_mono_r; lia).
    assert (H3 : (2 ^ prec = 2 ^ (prec - 1) * 2 ^ 1)%Z)
      by (rewrite <- Z.pow_add_r by lia; f_equal; lia).
    nia.
Qed.

(** Zeros and positive finite numbers. *)
Lemma SFleb_value (prec emax : Z) (x y : spec_float) :
  (0 < prec)%Z →
  SpecFloat.valid_binary prec emax x = true → SpecFloat.valid_binary prec emax y = true →
  SFfinite x = true → SFfinite y = true →
  SFleb (S754_zero false) x = true → SFleb (S754_zero false) y = true →
  (SFleb x y = true → (SF2Q x <= SF2Q y)%Q) ∧ (SFltb x y = true → (SF2Q x < SF2Q y)%Q).
Proof.
  intros Hprec Hvx Hvy Hfx Hfy Hx Hy.
  assert (Hpos : ∀ m e, (0 < SF2Q (S754_finite false m e))%Q).
  { intros m e. cbn. apply Qmult_lt_0_compat; [reflexivity | apply Qpow2_pos]. }
  destruct x as [sx|[|]| |[|] mx ex]; try discriminate;
    destruct y as [sy|[|]| |[|] my ey]; try discriminate;
    unfold SFleb, SFltb;
    try (cbn; split; intros Hc; try discriminate; try lra; fail).
  - cbn [SFcompare]. split; intros _; [apply Qlt_le_weak|]; apply Hpos.
  - pose proof (SFcompare_value prec emax mx my ex ey Hprec Hvx Hvy) as Hcmp.
    destruct (SFcompare (S754_finite false mx ex) (S754_finite false my ey)) as [[| |]|];
      split; intros Hc; try discriminate; try lra.
Qed.

(** *** The sign of a sum *)

Lemma SFadd_pos (prec emax : Z) (x y : spec_float) :
  (0 < prec)%Z →
  SpecFloat.valid_binary prec emax x = true → SpecFloat.valid_binary prec emax y = true →
  SFltb (S754_zero false) x = true →
  y ≠ S754_nan → y ≠ S754_infinity true →
  (∀ mx ex sy my ey, x = S754_finite false mx ex → y = S754_finite sy my ey →
                     (0 < SF2Q x + SF2Q y)%Q) →
  SFltb (S754_zero false) (SFadd prec emax x y) = true.
Proof.
  intros Hprec Hvx Hvy Hx Hnan Hinf Hsum.
  destruct x as [sx|[|]| |[|] mx ex]; try discriminate;
    destruct y as [sy|[|]| |sy my ey]; try congruence; try reflexivity.
  specialize (Hsum mx ex sy my ey eq_refl eq_refl).
  apply valid_finite in Hvx as (Hex & _). apply valid_finite in Hvy as (Hey & _).
  cbn [SFadd]. set (ez := Z.min ex ey).
  cbn [SF2Q] in Hsum.
  rewrite (Qpow2_aligned _ ex ez), (Qpow2_aligned _ ey ez) in Hsum by (unfold ez; lia).
  rewrite <- Qmult_plus_distr_l, <- inject_Z_plus in Hsum.
  assert (Hs : (0 < cond_Zopp false (Zpos mx) * 2 ^ (ex - ez)
                    + cond_Zopp sy (Zpos my) * 2 ^ (ey - ez))%Z).
  { rewrite Zlt_Qlt. change (inject_Z 0) with 0%Q.
    destruct (Qlt_le_dec 0 (inject_Z (cond_Zopp false (Zpos mx) * 2 ^ (ex - ez)
                                      + cond_Zopp sy (Zpos my) * 2 ^ (ey - ez))))
      as [Hlt | Hle]; [exact Hlt|].
    exfalso. pose proof (Qpow2_pos ez) as Hp.
    assert (Hneg : (inject_Z (cond_Zopp false (Zpos mx) * 2 ^ (ex - ez)
                              + cond_Zopp sy (Zpos my) * 2 ^ (ey - ez)) * (2 # 1) ^ ez <= 0)%Q).
    { rewrite <- (Qmult_0_l ((2 # 1) ^ ez)). apply Qmult_le_compat_r; [exact Hle | lra]. }
    lra. }
  rewrite (shl_align_value mx ex ez), (shl_align_value my ey ez) by (unfold ez; lia).
  assert (Hform : (cond_Zopp false (Zpos mx * 2 ^ (ex - ez))
                   + cond_Zopp sy (Zpos my * 2 ^ (ey - ez))
                   = cond_Zopp false (Zpos mx) * 2 ^ (ex - ez)
                     + cond_Zopp sy (Zpos my) * 2 ^ (ey - ez))%Z).
  { destruct sy; cbn [cond_Zopp]; lia. }
  rewrite Hform.
  destruct (cond_Zopp false (Zpos mx) * 2 ^ (ex - ez)
            + cond_Zopp sy (Zpos my) * 2 ^ (ey - ez))%Z as [|p|p]; try lia.
  cbn [binary_normalize].
  destruct (binary_round_pos prec emax p ez Hprec) as [-> | (m' & e' & ->)];
    [unfold ez; lia | reflexivity | reflexivity].
Qed.

(** *** binary64 numbers *)

Lemma leb_value (x y : float) :
  finite x = true → finite y = true →
  PrimFloat.leb 0 x = true → PrimFloat.leb 0 y = true →
  (PrimFloat.leb x y = true → (F2Q x <= F2Q y)%Q)
  ∧ (PrimFloat.ltb x y = true → (F2Q x < F2Q y)%Q).
Proof.
  unfold finite, F2Q. rewrite !FloatAxioms.leb_spec, FloatAxioms.ltb_spec.
  change (Prim2SF 0) with (S754_zero false). intros Hfx Hfy Hx Hy.
  apply (SFleb_value prec emax); try assumption; [reflexivity | apply Prim2SF_valid..].
Qed.

Lemma F2Q_nonneg (x : float) : PrimFloat.leb 0 x = true → (0 <= F2Q x)%Q.
Proof.
  unfold F2Q. rewrite FloatAxioms.leb_spec. change (Prim2SF 0) with (S754_zero false).
  destruct (Prim2SF x) as [s|s| |[|] m e]; cbn; intros Hx; try discriminate; try lra.
  apply Qmult_le_0_compat; [discriminate | apply Qlt_le_weak, Qpow2_pos].
Qed.

Lemma F2Q_pos (x : float) :
  PrimFloat.ltb 0 x = true → finite x = true → (0 < F2Q x)%Q.
Proof.
  unfold F2Q, finite. rewrite FloatAxioms.ltb_spec. change (Prim2SF 0) with (S754_zero false).
  destruct (Prim2SF x) as [s|s| |[|] m e]; cbn; intros Hx Hf; try discriminate.
  apply Qmult_lt_0_compat; [reflexivity | apply Qpow2_pos].
Qed.

Lemma F2Q_neg (x : float) :
  PrimFloat.ltb x 0 = true → finite x = true → (F2Q x < 0)%Q.
Proof.
  unfold F2Q, finite. rewrite FloatAxioms.ltb_spec. change (Prim2SF 0) with (S754_zero false).
  destruct (Prim2SF x) as [s|s| |[|] m e]; cbn; intros Hx Hf; try discriminate.
  assert (Hprod : (0 < inject_Z (Zpos m) * (2 # 1) ^ e)%Q)
    by (apply Qmult_lt_0_compat; [reflexivity | apply Qpow2_pos]).
  change (inject_Z (Zneg m)) with (- inject_Z (Zpos m))%Q.
  assert (Heq : (- inject_Z (Zpos m) * (2 # 1) ^ e == - (inject_Z (Zpos m) * (2 # 1) ^ e))%Q)
    by ring.
  rewrite Heq. lra.
Qed.

(** The sum of a positive number and of a number that does not outweigh it
    is positive. *)
Lemma add_positive (x y : float) :
  PrimFloat.ltb 0 x = true →
  finite y = true ∨ Prim2SF y = S754_infinity false →
  (finite x = true → finite y = true → (0 < F2Q x + F2Q y)%Q) →
  PrimFloat.ltb 0 (PrimFloat.add x y) = true.
Proof.
  rewrite !FloatAxioms.ltb_spec, add_spec. change (Prim2SF 0) with (S754_zero false).
  unfold finite, F2Q. intros Hx Hy Hsum.
  apply (SFadd_pos prec emax); try assumption; [reflexivity | apply Prim2SF_valid.. | | |].
  - intros Hnan. rewrite Hnan in Hy. destruct Hy; discriminate.
  - intros Hinf. rewrite Hinf in Hy. destruct Hy; discriminate.
  - intros mx ex sy my ey Hxe Hye. apply Hsum; [rewrite Hxe | rewrite Hye]; reflexivity.
Qed.

(** A zero or a positive finite number. *)
Lemma nonneg_cases (x : float) :
  finite x = true → PrimFloat.leb 0 x = true →
  (∃ s, Prim2SF x = S754_zero s) ∨ (∃ m e, Prim2SF x = S754_finite false m e).
Proof.
  unfold finite. rewrite FloatAxioms.leb_spec. change (Prim2SF 0) with (S754_zero false).
  destruct (Prim2SF x) as [s|s| |[|] m e]; cbn; intros Hf Hx; try discriminate; eauto.
Qed.

Lemma nonneg_of_cases (x : float) :
  (∃ s, Prim2SF x = S754_zero s) ∨ (∃ m e, Prim2SF x = S754_finite false m e) →
  finite x = true ∧ PrimFloat.leb 0 x = true.
Proof.
  unfold finite. rewrite FloatAxioms.leb_spec. change (Prim2SF 0) with (S754_zero false).
  intros [[s ->] | (m & e & ->)]; split; reflexivity.
Qed.

(** The product of two numbers, each a zero or positive and finite, is a
    zero, positive and finite, or the positive infinity. *)
Lemma mul_nonneg (x y : float) :
  finite x = true → PrimFloat.leb 0 x = true →
  finite y = true → PrimFloat.leb 0 y = true →
  (finite (PrimFloat.mul x y) = true ∧ PrimFloat.leb 0 (PrimFloat.mul x y) = true)
  ∨ Prim2SF (PrimFloat.mul x y) = S754_infinity false.
Proof.
  intros Hfx Hx Hfy Hy.
  destruct (nonneg_cases x Hfx Hx) as [[sx Hxe] | (mx & ex & Hxe)],
           (nonneg_cases y Hfy Hy) as [[sy Hye] | (my & ey & Hye)];
    try (left; apply nonneg_of_cases; left; rewrite mul_spec, Hxe, Hye; cbn; eauto; fail).
  pose proof (binary_round_aux_sign prec emax false (Zpos (mx * my)) (ex + ey) loc_Exact
                ltac:(lia)) as Hcases.
  assert (Hmul : Prim2SF (PrimFloat.mul x y)
                 = binary_round_aux prec emax false (Zpos (mx * my)) (ex + ey) loc_Exact)
    by (rewrite mul_spec, Hxe, Hye; reflexivity).
  rewrite <- Hmul in Hcases.
  destruct Hcases as [Hz | [Hi | Hf]]; [left | right; exact Hi | left];
    apply nonneg_of_cases; eauto.
Qed.

Lemma div_eucl_nonneg (a : Z) (b : positive) : (0 ≤ a)%Z → (0 ≤ (Z.div_eucl a (Zpos b)).1)%Z.
Proof. intros Ha. change (Z.div_eucl a (Zpos b)).1 with (a / Zpos b)%Z. apply Z.div_pos; lia. Qed.

(** The ratio [-v / dv] of a positive [v] and a negative finite [dv] is a
    zero, positive and finite, or the positive infinity. *)
Lemma ratio_nonneg (v dv : float) :
  PrimFloat.ltb 0 v = true → PrimFloat.ltb dv 0 = true → finite dv = true →
  (finite (PrimFloat.div (PrimFloat.opp v) dv) = true
   ∧ PrimFloat.leb 0 (PrimFloat.div (PrimFloat.opp v) dv) = true)
  ∨ Prim2SF (PrimFloat.div (PrimFloat.opp v) dv) = S754_infinity false.
Proof.
  unfold finite at 1. rewrite !FloatAxioms.ltb_spec. change (Prim2SF 0) with (S754_zero false).
  intros Hv Hdv Hf.
  assert (Hdiv : Prim2SF (PrimFloat.div (PrimFloat.opp v) dv)
                 = SFdiv prec emax (SFopp (Prim2SF v)) (Prim2SF dv))
    by (rewrite div_spec, opp_spec; reflexivity).
  destruct (Prim2SF dv) as [s|s| |[|] md ed]; try discriminate.
  destruct (Prim2SF v) as [s|[|]| |[|] mv ev]; try discriminate.
  - right. rewrite Hdiv. reflexivity.
  - cbn [SFopp negb SFdiv xorb] in Hdiv.
    unfold SFdiv_core_binary in Hdiv.
    set (e' := Z.min _ _) in Hdiv. set (m' := match (ev - ed - e')%Z with
                                               | Z0 => Zpos mv
                                               | Zpos _ => Z.shiftl (Zpos mv) (ev - ed - e')
                                               | Zneg _ => 0%Z
                                               end) in Hdiv.
    assert (Hm' : (0 ≤ m')%Z).
    { unfold m'. destruct (ev - ed - e')%Z; try lia. apply Z.shiftl_nonneg. lia. }
    pose proof (div_eucl_nonneg m' md Hm') as Hq.
    destruct (Z.div_eucl m' (Zpos md)) as [q r]. cbn [fst] in Hq.
    pose proof (binary_round_aux_sign prec emax false q e' (new_location (Zpos md) r) Hq)
      as Hcases.
    rewrite <- Hdiv in Hcases.
    destruct Hcases as [Hz | [Hi | Hfin]]; [left | right; exact Hi | left];
      apply nonneg_of_cases; eauto.
Qed.

(** *** The step rule *)

Lemma finite_not_nan (x : float) : finite x = true → PrimFloat.is_nan x = false.
Proof.
  unfold finite. intros Hf. apply not_nan_is_nan. intros Hnan. rewrite Hnan in Hf. discriminate.
Qed.

(** The bound that the loop builds is the start or one of the ratios, and is
    at most the start and every ratio that is not NaN. *)
Lemma fold_py_min_elem {F : Type} `{Scalar F} (l : list F) :
  ∀ a : F, fold_left py_min l a ∈ a :: l.
Proof.
  induction l as [|r l IH]; intros a; [apply list_elem_of_here|].
  cbn [fold_left]. specialize (IH (py_min a r)).
  apply elem_of_cons in IH as [Heq | Hin].
  - rewrite Heq. unfold py_min. destruct (f_ltb r a);
      [apply list_elem_of_further, list_elem_of_here | apply list_elem_of_here].
  - do 2 apply list_elem_of_further. exact Hin.
Qed.

Lemma fold_py_min_le (l : list float) :
  ∀ a : float,
    PrimFloat.is_nan a = false →
    PrimFloat.leb (fold_left py_min l a) a = true
    ∧ ∀ r, r ∈ l → PrimFloat.is_nan r = false → PrimFloat.leb (fold_left py_min l a) r = true.
Proof.
  induction l as [|r0 l IH]; intros a Ha.
  - split; [apply leb_refl, Ha|]. intros r Hr. inversion Hr.
  - cbn [fold_left].
    assert (Hstep : PrimFloat.is_nan (py_min a r0) = false
                    ∧ PrimFloat.leb (py_min a r0) a = true
                    ∧ (PrimFloat.is_nan r0 = false → PrimFloat.leb (py_min a r0) r0 = true)).
    { unfold py_min. cbn [f_ltb float_scalar].
      destruct (PrimFloat.ltb r0 a) eqn:Hlt.
      - assert (Hr0 : PrimFloat.is_nan r0 = false).
        { destruct (PrimFloat.is_nan r0) eqn:Hn; [|reflexivity].
          apply is_nan_true in Hn. rewrite FloatAxioms.ltb_spec, Hn in Hlt. discriminate. }
        split; [exact Hr0|]. split; [apply ltb_leb, Hlt | intros _; apply leb_refl, Hr0].
      - split; [exact Ha|]. split; [apply leb_refl, Ha|].
        intros Hr0. apply not_ltb_leb; assumption. }
    destruct Hstep as (Hnan & Hle_a & Hle_r).
    destruct (IH (py_min a r0) Hnan) as [Hfold Hall].
    split; [eapply leb_trans; eassumption|].
    intros r Hr Hrnan. apply elem_of_cons in Hr as [-> | Hr]; [|apply Hall; assumption].
    eapply leb_trans; [exact Hfold | apply Hle_r, Hrnan].
Qed.

(** The ratios are those of the components that decrease. *)
Lemma ratios_elem {F : Type} `{Scalar F} (V : list F) :
  ∀ (dV : list F) (r : F),
    r ∈ ratios V dV ↔
    ∃ (i : nat) (v dv : F),
      V !! i = Some v ∧ dV !! i = Some dv ∧ f_ltb dv f_zero = true
      ∧ r = f_div (f_opp v) dv.
Proof.
  induction V as [|v V IH]; intros [|dv dV] r.
  - split; [intros Hr; inversion Hr | intros (i & v & dv & Hv & _); discriminate].
  - split; [intros Hr; inversion Hr | intros (i & v & dv' & Hv & _); discriminate].
  - split; [intros Hr; inversion Hr | intros (i & v' & dv & _ & Hdv & _); discriminate].
  - destruct (f_ltb dv f_zero) eqn:Hneg.
    + rewrite ratios_cons_neg by exact Hneg. rewrite elem_of_cons, IH. split.
      * intros [-> | (i & v' & dv' & Hv & Hdv & Hlt & ->)].
        -- exists O, v, dv. auto.
        -- exists (S i), v', dv'. auto.
      * intros ([|i] & v' & dv' & Hv & Hdv & Hlt & ->).
        -- injection Hv as <-. injection Hdv as <-. left. reflexivity.
        -- right. exists i, v', dv'. auto.
    + rewrite ratios_cons_nonneg by exact Hneg. rewrite IH. split.
      * intros (i & v' & dv' & Hv & Hdv & Hlt & ->). exists (S i), v', dv'. auto.
      * intros ([|i] & v' & dv' & Hv & Hdv & Hlt & ->).
        -- injection Hdv as <-. congruence.
        -- exists i, v', dv'. auto.
Qed.

(** A finite ratio has a finite numerator. *)
Lemma ratio_finite_inv (v dv : float) :
  PrimFloat.ltb 0 v = true → PrimFloat.ltb dv 0 = true → finite dv = true →
  finite (PrimFloat.div (PrimFloat.opp v) dv) = true → finite v = true.
Proof.
  unfold finite. rewrite !FloatAxioms.ltb_spec, div_spec, opp_spec.
  change (Prim2SF 0) with (S754_zero false).
  destruct (Prim2SF dv) as [s|s| |[|] md ed]; try discriminate.
  destruct (Prim2SF v) as [s|[|]| |[|] mv ev]; try discriminate; try reflexivity.
Qed.

Lemma not_ltb_zero_leb (dv : float) :
  finite dv = true → PrimFloat.ltb dv 0 = false → PrimFloat.leb 0 dv = true.
Proof.
  unfold finite. rewrite FloatAxioms.ltb_spec, FloatAxioms.leb_spec.
  change (Prim2SF 0) with (S754_zero false).
  destruct (Prim2SF dv) as [s|s| |[|] md ed]; try discriminate; reflexivity.
Qed.

Lemma Qmult_le_nonneg_l (a x y : Q) : (0 <= a → x <= y → a * x <= a * y)%Q.
Proof.
  intros Ha Hxy. rewrite (Qmult_comm a x), (Qmult_comm a y).
  apply Qmult_le_compat_r; assumption.
Qed.

(** The margin of the factor 0.9999995 against three roundings, in the
    rationals: [V] a component, [k] its decrease, [R] its ratio, [A0] the
    bound of the loop, [CA] the scaled bound, [Al] the step, [P] the
    product. *)
Lemma fraction_margin (V k R A0 C CA Al P : Q) :
  (0 < V → 0 < k → 0 <= A0 → A0 <= R → R <= slack * (V / k) →
   0 <= C → CA <= slack * (C * A0) → 0 <= Al → Al <= CA →
   Qabs P <= slack * (k * Al) → slack * slack * slack * C < 1 →
   0 < V + P)%Q.
Proof.
  intros HV Hk HA0 HA0R HR HC HCA HAl HAlCA HP Hmargin.
  assert (Hslack : (1 <= slack)%Q) by (unfold slack; lra).
  assert (HkR : (k * R <= slack * V)%Q).
  { assert (H1 : (k * R <= k * (slack * (V / k)))%Q)
      by (apply Qmult_le_nonneg_l; [lra | assumption]).
    assert (H2 : (k * (slack * (V / k)) == slack * V)%Q) by (field; lra).
    lra. }
  assert (HkA0 : (k * A0 <= slack * V)%Q).
  { assert (H1 : (k * A0 <= k * R)%Q) by (apply Qmult_le_nonneg_l; [lra | assumption]). lra. }
  assert (HkCA : (k * CA <= slack * slack * C * V)%Q).
  { assert (H1 : (k * CA <= k * (slack * (C * A0)))%Q) by (apply Qmult_le_nonneg_l; [lra | assumption]).
    assert (H2 : (slack * C * (k * A0) <= slack * C * (slack * V))%Q).
    { apply Qmult_le_nonneg_l; [|exact HkA0].
      apply Qmult_le_0_compat; lra. }
    assert (H3 : (k * (slack * (C * A0)) == slack * C * (k * A0))%Q) by ring.
    assert (H4 : (slack * C * (slack * V) == slack * slack * C * V)%Q) by ring.
    lra. }
  assert (HkAl : (k * Al <= slack * slack * C * V)%Q).
  { assert (H1 : (k * Al <= k * CA)%Q) by (apply Qmult_le_nonneg_l; [lra | assumption]). lra. }
  assert (HPb : (Qabs P <= slack * slack * slack * C * V)%Q).
  { assert (H1 : (slack * (k * Al) <= slack * (slack * slack * C * V))%Q)
      by (apply Qmult_le_nonneg_l; [lra | exact HkAl]).
    assert (H2 : (slack * (slack * slack * C * V) == slack * slack * slack * C * V)%Q) by ring.
    lra. }
  assert (Hlt : (slack * slack * slack * C * V < V)%Q).
  { assert (H1 : (slack * slack * slack * C * V < 1 * V)%Q)
      by (apply Qmult_lt_compat_r; assumption).
    lra. }
  pose proof (Qle_Qabs (- P)) as Hneg. rewrite Qabs_opp in Hneg. lra.
Qed.

(** The step of the fraction to the boundary keeps a positive vector
    positive on binary64, when its roundings are accurate. *)
Lemma step_keeps_positive (V dV : list float) (alpha : float) :
  Forall (λ v, PrimFloat.ltb 0 v = true) V →
  step_accurate V dV →
  step_calculation V dV = Ok alpha →
  Forall (λ v, PrimFloat.ltb 0 v = true) (vadd V (vscale_r dV alpha)).
Proof.
  intros Hpos [Hscale Hcomp] Hstep.
  pose proof (step_calculation_Ok_length V dV alpha Hstep) as Hlen.
  rewrite (step_calculation_bound V dV Hlen) in Hstep. injection Hstep as <-.
  cbn [f_mul f_div f_opp f_ltb f_zero f_one f_safety float_scalar] in *.
  set (a0 := step_bound V dV) in *.
  set (ca := PrimFloat.mul 0.9999995 a0) in *.
  (* the ratios *)
  assert (Hratio : ∀ r, r ∈ ratios V dV → finite r = true ∧ PrimFloat.leb 0 r = true).
  { intros r (i & v & dv & Hv & Hdv & Hneg & ->)%ratios_elem.
    cbn [f_div f_opp f_ltb f_zero float_scalar] in *.
    destruct (Hcomp i v dv Hv Hdv) as [Hfdv Hacc].
    destruct (Hacc Hneg) as [[Hfr _] _].
    pose proof (proj1 (Forall_lookup _ V) Hpos i v Hv) as Hvpos. cbn in Hvpos.
    destruct (ratio_nonneg v dv Hvpos Hneg Hfdv) as [[_ Hr] | Hinf]; [auto|].
    unfold finite in Hfr. rewrite Hinf in Hfr. discriminate. }
  (* the bound of the loop *)
  assert (Ha0 : finite a0 = true ∧ PrimFloat.leb 0 a0 = true).
  { pose proof (fold_py_min_elem (ratios V dV) (1%float : float)) as Hin.
    change (fold_left py_min (ratios V dV) 1%float) with a0 in Hin.
    apply elem_of_cons in Hin as [-> | Hin]; [split; reflexivity | apply Hratio, Hin]. }
  destruct Ha0 as [Hfa0 Hna0].
  (* the scaled bound *)
  destruct Hscale as [Hfca Hca].
  assert (Hnca : PrimFloat.leb 0 ca = true).
  { destruct (mul_nonneg 0.9999995 a0 eq_refl eq_refl Hfa0 Hna0) as [[_ Hn] | Hinf]; [exact Hn|].
    unfold finite in Hfca. fold ca in Hinf. rewrite Hinf in Hfca. discriminate. }
  (* the step *)
  set (al := py_min ca 1%float) in *.
  assert (Hal : finite al = true ∧ PrimFloat.leb 0 al = true ∧ (F2Q al <= F2Q ca)%Q).
  { unfold al, py_min. cbn [f_ltb float_scalar].
    destruct (PrimFloat.ltb 1 ca) eqn:Hlt.
    - split; [reflexivity|]. split; [reflexivity|].
      apply Qlt_le_weak.
      apply (proj2 (leb_value 1 ca eq_refl Hfca eq_refl Hnca)), Hlt.
    - split; [exact Hfca|]. split; [exact Hnca | lra]. }
  destruct Hal as (Hfal & Hnal & Hal).
  assert (Hmargin : (slack * slack * slack * F2Q 0.9999995 < 1)%Q) by (vm_compute; reflexivity).
  apply Forall_lookup. intros i w Hw.
  unfold vadd, vscale_r in Hw.
  apply lookup_zip_with_Some in Hw as (v & p & -> & Hv & Hp).
  rewrite list_lookup_fmap in Hp.
  destruct (dV !! i) as [dv|] eqn:Hdv; [|discriminate]. injection Hp as <-.
  cbn [f_add f_mul float_scalar].
  pose proof (proj1 (Forall_lookup _ V) Hpos i v Hv) as Hvpos. cbn in Hvpos.
  destruct (Hcomp i v dv Hv Hdv) as [Hfdv Hacc].
  destruct (PrimFloat.ltb dv 0) eqn:Hneg.
  - (* a component that decreases *)
    destruct (Hacc eq_refl) as [[Hfr Hr] [Hfp Hp]].
    set (r := PrimFloat.div (PrimFloat.opp v) dv) in *.
    assert (Hrin : r ∈ ratios V dV).
    { apply ratios_elem. exists i, v, dv. auto. }
    destruct (Hratio r Hrin) as [_ Hnr].
    assert (Hfv : finite v = true) by (eapply ratio_finite_inv; eassumption).
    pose proof (F2Q_pos v Hvpos Hfv) as HV.
    pose proof (F2Q_neg dv Hneg Hfdv) as HD.
    assert (Ha0r : (F2Q a0 <= F2Q r)%Q).
    { apply (proj1 (leb_value a0 r Hfa0 Hfr Hna0 Hnr)).
      apply (proj2 (fold_py_min_le (ratios V dV) 1%float eq_refl) r Hrin).
      apply finite_not_nan, Hfr. }
    apply add_positive; [exact Hvpos | left; exact Hfp|]. intros _ _.
    apply (fraction_margin (F2Q v) (- F2Q dv) (F2Q r) (F2Q a0) (F2Q 0.9999995) (F2Q ca)
             (F2Q al) (F2Q (PrimFloat.mul dv al))); try assumption; try lra.
    + apply F2Q_nonneg, Hna0.
    + rewrite Qabs_pos in Hr by (apply F2Q_nonneg, Hnr).
      assert (Heq : (- F2Q v / F2Q dv == F2Q v / - F2Q dv)%Q) by (field; lra).
      rewrite Heq, Qabs_pos in Hr; [exact Hr|].
      apply Qlt_le_weak, Qlt_shift_div_l; lra.
    + vm_compute. discriminate.
    + rewrite Qabs_pos in Hca by (apply F2Q_nonneg, Hnca).
      rewrite Qabs_pos in Hca; [exact Hca|].
      apply Qmult_le_0_compat; [vm_compute; discriminate | apply F2Q_nonneg, Hna0].
    + apply F2Q_nonneg, Hnal.
    + assert (Heq : (F2Q dv * F2Q al == - (- F2Q dv * F2Q al))%Q) by ring.
      rewrite Heq, Qabs_opp, (Qabs_pos (- F2Q dv * F2Q al)) in Hp; [exact Hp|].
      apply Qmult_le_0_compat; [lra | apply F2Q_nonneg, Hnal].
  - (* a component that does not decrease *)
    pose proof (not_ltb_zero_leb dv Hfdv Hneg) as Hndv.
    destruct (mul_nonneg dv al Hfdv Hndv Hfal Hnal) as [[Hfp Hnp] | Hinf].
    + apply add_positive; [exact Hvpos | left; exact Hfp|]. intros Hfv _.
      pose proof (F2Q_pos v Hvpos Hfv). pose proof (F2Q_nonneg _ Hnp). lra.
    + apply add_positive; [exact Hvpos | right; exact Hinf|].
      intros _ Hfp. unfold finite in Hfp. rewrite Hinf in Hfp. discriminate.
Qed.

(** *** The solver on binary64 *)

Section Binary64.
Context {Mat : Type} `{LinAlg float Mat}.

Variable h0 : gmap loc (list float).
Variable x0 : loc.
Variables n_x n_eq n_ineq : Z.
Variable func : list float → list float → list float → IpsFunctionReturn float Mat.
Variable max_iter : Z.
Variable tol : float.
Variable verbose : Z.

(** C3 (as amended).  After every iteration [gamma] is
    [max(0.1 * (mu @ z) / n_ineq, tol)] as Python computes the maximum: it
    is never below [tol], in any state of a call and in the solution that a
    call returns, and it is at least [tol] when neither the quotient nor [tol]
    is NaN. *)
Theorem gamma_never_below_tol :
  (∀ st, reachable h0 x0 n_x n_eq n_ineq func max_iter tol verbose st →
         (0 < st_iter_counter st)%Z →
         let q := f_div (f_mul f_tenth (dot (st_mu st) (st_z st))) (f_of_int n_ineq) in
         st_gamma st = py_max q tol
         ∧ PrimFloat.ltb (st_gamma st) tol = false
         ∧ (PrimFloat.is_nan q = false → PrimFloat.is_nan tol = false →
            PrimFloat.leb tol (st_gamma st) = true))
  ∧ (∀ o, interior_point_solver h0 x0 n_x n_eq n_ineq func max_iter tol verbose = Ok o →
          PrimFloat.ltb (sol_gamma (out_solution o)) tol = false
          ∧ ∃ st, reachable h0 x0 n_x n_eq n_ineq func max_iter tol verbose st
                  ∧ (0 < st_iter_counter st)%Z
                  ∧ sol_gamma (out_solution o) = st_gamma st).
Proof.
  assert (Hstates : ∀ st, reachable h0 x0 n_x n_eq n_ineq func max_iter tol verbose st →
            (0 < st_iter_counter st)%Z →
            let q := f_div (f_mul f_tenth (dot (st_mu st) (st_z st))) (f_of_int n_ineq) in
            st_gamma st = py_max q tol
            ∧ PrimFloat.ltb (st_gamma st) tol = false
            ∧ (PrimFloat.is_nan q = false → PrimFloat.is_nan tol = false →
               PrimFloat.leb tol (st_gamma st) = true)).
  { intros st Hreach Hpos q.
    pose proof (reachable_gamma _ _ _ _ _ _ _ _ _ st Hreach Hpos) as Hgamma.
    fold q in Hgamma. rewrite Hgamma.
    split; [reflexivity | apply py_max_floor]. }
  split; [exact Hstates|].
  intros o Hcall.
  pose proof (interior_point_solver_iterations _ _ _ _ _ _ _ _ _ o Hcall) as [Hits _].
  apply interior_point_solver_Ok in Hcall as (st & x_arr & ret & Hreach & _ & _ & _ & ->).
  cbn in *. split.
  - apply (Hstates st Hreach). lia.
  - exists st. repeat split; try assumption; lia.
Qed.

(** The step rule limits the components of the increment that are below
    zero, and NaN is not: whatever the matrices and the evaluator, an
    iteration in which [dz[i]] is NaN leaves [z[i]] NaN. *)
Lemma nan_slack_increment_enters_z (st st' : ips_state float Mat) (i : nat) :
  reachable h0 x0 n_x n_eq n_ineq func max_iter tol verbose st →
  iteration n_x n_ineq func tol verbose st = Ok st' →
  (i < Z.to_nat n_ineq)%nat →
  (∀ x_arr sol,
     st_heap st !! st_x st = Some x_arr →
     spsolve (newton_system func st x_arr).1 (newton_system func st x_arr).2 = Some sol →
     (increments n_x func st x_arr sol).1.2 !! i = Some PrimFloat.nan) →
  st_z st' !! i = Some PrimFloat.nan
  ∧ PrimFloat.ltb 0 PrimFloat.nan = false.
Proof.
  intros Hreach Hit Hi Hnan.
  pose proof (reachable_inv _ _ _ _ _ _ _ _ _ st Hreach) as
    (Hiter & _ & _ & _ & _ & _ & _ & _ & _ & Hz & _).
  apply iteration_Ok in Hit as (x_arr & sol & alpha_p & alpha_d & Hx & Hsol & _ & _ & _ & ->);
    [|lia].
  specialize (Hnan x_arr sol Hx Hsol).
  unfold advance. destruct (increments n_x func st x_arr sol) as [[[dx dlam] dz] dmu].
  cbn [fst snd] in Hnan. cbn [st_z]. split; [|reflexivity].
  destruct (lookup_lt_is_Some_2 (st_z st) i) as [v Hv]; [lia|].
  eapply nan_increment_enters; eassumption.
Qed.

(** With no inequality, [gamma] is NaN after every iteration and [converged]
    is false. *)
Lemma no_inequality_gamma_nan (st : ips_state float Mat) :
  n_ineq = 0%Z →
  reachable h0 x0 n_x n_eq n_ineq func max_iter tol verbose st →
  (0 < st_iter_counter st)%Z →
  st_gamma st = PrimFloat.nan ∧ st_converged st = false.
Proof.
  intros Hn Hreach Hpos.
  pose proof (reachable_gamma _ _ _ _ _ _ _ _ _ st Hreach Hpos) as Hgamma.
  pose proof (reachable_inv _ _ _ _ _ _ _ _ _ st Hreach) as
    (_ & _ & _ & _ & _ & _ & _ & _ & _ & Hz & Hmu & _ & _ & Hconv & _).
  rewrite Hn in Hz, Hmu, Hgamma.
  destruct (st_z st); [|discriminate]. destruct (st_mu st); [|discriminate].
  assert (Hnan : st_gamma st = PrimFloat.nan).
  { rewrite Hgamma. unfold py_max.
    change (f_div (f_mul f_tenth (dot (F:=float) [] [])) (f_of_int 0)) with PrimFloat.nan.
    cbn [f_ltb float_scalar]. rewrite ltb_nan_l. reflexivity. }
  split; [exact Hnan|]. rewrite Hconv, Hnan. apply leb_nan_r.
Qed.

(** C4.  With [n_ineq = 0] the quotient of line 272 is [0.0 / 0]: the
    division raises nothing, [gamma] is NaN from the first iteration on, the
    test [error <= gamma] is false, and a call that returns has used up its
    iterations and reports [converged = False]. *)
Theorem no_inequality_never_converged (o : outcome float Mat) :
  n_ineq = 0%Z →
  interior_point_solver h0 x0 n_x n_eq n_ineq func max_iter tol verbose = Ok o →
  sol_gamma (out_solution o) = PrimFloat.nan
  ∧ sol_converged (out_solution o) = false
  ∧ sol_iterations (out_solution o) = max_iter.
Proof.
  intros Hn Hcall.
  pose proof (interior_point_solver_iterations _ _ _ _ _ _ _ _ _ o Hcall) as (Hits & _ & Hmax).
  apply interior_point_solver_Ok in Hcall as (st & x_arr & ret & Hreach & _ & _ & _ & ->).
  cbn in *.
  destruct (no_inequality_gamma_nan st Hn Hreach) as [Hnan Hconv]; [lia|].
  auto.
Qed.


(** C10 (as amended).  A call that returns a solution has run at least one
    iteration of the loop.  With [max_iter = 0] the initialisation succeeds,
    [converged] starts false, the loop is not entered, [ret] is unbound and the
    call raises UnboundLocalError at the return.  With [max_iter < 0] the call
    fails before the loop, on the array [error_evolution]: IndexError for
    [max_iter = -1], ValueError below.  With [max_iter <= 0] no solution is
    returned. *)
Theorem no_iteration_no_solution :
  (∀ o, interior_point_solver h0 x0 n_x n_eq n_ineq func max_iter tol verbose = Ok o →
        (1 ≤ sol_iterations (out_solution o))%Z ∧ (1 ≤ max_iter)%Z)
  ∧ (is_Some (h0 !! x0) → (0 ≤ n_eq)%Z → (0 ≤ n_ineq)%Z → (max_iter ≤ 0)%Z →
     interior_point_solver h0 x0 n_x n_eq n_ineq func max_iter tol verbose
     = Err (if (max_iter =? 0)%Z then UnboundLocalError
            else if (max_iter =? -1)%Z then IndexError
                 else ValueError)
     ∧ (max_iter = 0%Z →
        ∃ st0, init_state h0 x0 n_eq n_ineq max_iter = Ok st0
               ∧ st_converged st0 = false
               ∧ loop_test max_iter st0 = false
               ∧ st_ret st0 = None)).
Proof.
  split.
  { intros o Hcall.
    pose proof (interior_point_solver_iterations _ _ _ _ _ _ _ _ _ o Hcall) as [Hits _]. lia. }
  intros Hx0 Hneq Hnineq Hmax. split.
  - apply interior_point_solver_no_iteration; assumption.
  - intros ->. destruct Hx0 as [x0_arr Hx0].
    destruct (init_state_total h0 x0 n_eq n_ineq 0 x0_arr Hx0 Hneq Hnineq) as [st0 Hinit];
      [lia|].
    exists st0. split; [exact Hinit|].
    apply init_state_Ok in Hinit as (? & _ & _ & _ & _ & ->). cbn. auto.
Qed.

End Binary64.

(** ** Positivity on binary64 *)

Section Positivity.
Context {Mat : Type} `{LinAlg float Mat}.

Variable h0 : gmap loc (list float).
Variable x0 : loc.
Variables n_x n_eq n_ineq : Z.
Variable func : list float → list float → list float → IpsFunctionReturn float Mat.
Variable max_iter : Z.
Variable tol : float.
Variable verbose : Z.

Lemma reachable_accurately_reachable (st : ips_state float Mat) :
  reachable_accurately h0 x0 n_x n_eq n_ineq func max_iter tol verbose st →
  reachable h0 x0 n_x n_eq n_ineq func max_iter tol verbose st.
Proof.
  induction 1 as [st Hinit | st st' x_arr sol _ IH Htest _ _ _ _ Hit].
  - apply reachable_init, Hinit.
  - eapply reachable_step; eassumption.
Qed.

Lemma step_accurate_finite (V dV : list float) : step_accurate V dV → step_finite V dV.
Proof. intros [_ Hacc] i v dv Hv Hdv. apply (Hacc i v dv Hv Hdv). Qed.

Lemma reachable_accurately_finitely (st : ips_state float Mat) :
  reachable_accurately h0 x0 n_x n_eq n_ineq func max_iter tol verbose st →
  reachable_finitely h0 x0 n_x n_eq n_ineq func max_iter tol verbose st.
Proof.
  induction 1 as [st Hinit | st st' x_arr sol _ IH Htest Hx Hsol Hz Hmu Hit].
  - apply finitely_init, Hinit.
  - eapply finitely_step; eauto using step_accurate_finite.
Qed.

Lemma reachable_accurately_positive (st : ips_state float Mat) :
  reachable_accurately h0 x0 n_x n_eq n_ineq func max_iter tol verbose st →
  Forall (λ v, PrimFloat.ltb 0 v = true) (st_z st)
  ∧ Forall (λ v, PrimFloat.ltb 0 v = true) (st_mu st).
Proof.
  induction 1 as [st Hinit | st st' x_arr sol Hacc [IHz IHmu] Htest Hx Hsol Hz Hmu Hit].
  - apply init_state_Ok in Hinit as (x0_arr & _ & _ & _ & _ & ->). cbn.
    split; apply Forall_replicate; reflexivity.
  - pose proof (reachable_inv _ _ _ _ _ _ _ _ _ st (reachable_accurately_reachable st Hacc))
      as (Hiter & _).
    apply iteration_Ok in Hit
        as (x_arr' & sol' & alpha_p & alpha_d & Hx' & Hsol' & Hp & Hd & _ & ->); [|lia].
    rewrite Hx in Hx'. injection Hx' as <-. rewrite Hsol in Hsol'. injection Hsol' as <-.
    unfold advance. destruct (increments n_x func st x_arr sol) as [[[dx dlam] dz] dmu].
    cbn [fst snd st_z st_mu] in *.
    split; eapply step_keeps_positive; eassumption.
Qed.

(** C2 (as amended).  On binary64, in every state that a call reaches
    through iterations whose steps are accurate (the increments [dz] and
    [dmu] are finite, and the roundings of the step rule, the ratio
    [-V[i] / dV[i]] and the product [dV[i] * alpha] of each component that
    decreases and the scaling by 0.9999995, give finite numbers that are no
    more than 1e-8, relatively, above the exact values), the initial state
    and the state after each such iteration, [z] and [mu] have [n_ineq]
    components, every [z[i]] is positive and every [mu[i]] is non-negative. *)
Theorem slacks_and_multipliers_positive (st : ips_state float Mat) :
  reachable_accurately h0 x0 n_x n_eq n_ineq func max_iter tol verbose st →
  reachable h0 x0 n_x n_eq n_ineq func max_iter tol verbose st
  ∧ length (st_z st) = Z.to_nat n_ineq
  ∧ length (st_mu st) = Z.to_nat n_ineq
  ∧ (∀ i zi, st_z st !! i = Some zi → PrimFloat.ltb 0 zi = true)
  ∧ (∀ i mui, st_mu st !! i = Some mui → PrimFloat.leb 0 mui = true).
Proof.
  intros Hacc. pose proof (reachable_accurately_reachable st Hacc) as Hreach.
  pose proof (reachable_inv _ _ _ _ _ _ _ _ _ st Hreach) as
    (_ & _ & _ & _ & _ & _ & _ & _ & _ & Hz & Hmu & _).
  destruct (reachable_accurately_positive st Hacc) as [Hzpos Hmupos].
  split; [exact Hreach|]. split; [exact Hz|]. split; [exact Hmu|]. split.
  - intros i zi Hi. apply (proj1 (Forall_lookup _ _) Hzpos i zi Hi).
  - intros i mui Hi. apply ltb_leb, (proj1 (Forall_lookup _ _) Hmupos i mui Hi).
Qed.

End Positivity.

(** ** The dense matrices *)



(** ** The solver on the three problems *)

(** C2 fails on binary64: on the linear program [lp_line] the matrix of the
    first iteration is singular, the solve answers NaN, and after the first
    iteration [z[0]] and [mu[0]] are NaN, for which neither [z[0] > 0] nor
    [mu[0] >= 0] holds. *)
Lemma positivity_lost_on_binary64 :
  ∃ st zi mui,
    reachable (H0 := scipy_linalg) (heap_of [0%float; 0%float]) 0 2 0 1 lp_line 5
      1e-6%float 0 st
    ∧ st_iter_counter st = 1%Z
    ∧ st_z st !! 0%nat = Some zi ∧ PrimFloat.ltb 0 zi = false
    ∧ st_mu st !! 0%nat = Some mui ∧ PrimFloat.leb 0 mui = false.
Proof.
  eexists. exists PrimFloat.nan, PrimFloat.nan. split.
  - eapply reachable_step;
      [apply reachable_init; vm_compute; reflexivity
      | vm_compute; reflexivity | vm_compute; reflexivity].
  - vm_compute. repeat split; reflexivity.
Qed.

Lemma slacks_and_multipliers_positive_witness :
  ∃ st,
    reachable_accurately (H := scipy_linalg) (heap_of [3%float]) 0 1 0 1 qp_bound 2
      1e-6%float 0 st
    ∧ st_iter_counter st = 1%Z
    ∧ length (st_z st) = 1%nat
    ∧ (∀ i zi, st_z st !! i = Some zi → PrimFloat.ltb 0 zi = true).
Proof.
  eexists.
  match goal with |- ?R ∧ _ => assert (Hacc : R) end.
  { eapply (accurately_step (H := scipy_linalg) (heap_of [3%float]) 0 1 0 1 qp_bound 2
              1e-6%float 0 _ _ [3%float] [(-2)%float]).
    - apply accurately_init. vm_compute. reflexivity.
    - vm_compute. reflexivity.
    - vm_compute. reflexivity.
    - vm_compute. reflexivity.
    - split.
      + split; [vm_compute; reflexivity | vm_compute; discriminate].
      + intros [|i] v dv Hv Hdv; [|discriminate].
        vm_compute in Hv, Hdv. injection Hv as <-. injection Hdv as <-.
        split; [vm_compute; reflexivity|]. intros _.
        split; (split; [vm_compute; reflexivity | vm_compute; discriminate]).
    - split.
      + split; [vm_compute; reflexivity | vm_compute; discriminate].
      + intros [|i] v dv Hv Hdv; [|discriminate].
        vm_compute in Hv, Hdv. injection Hv as <-. injection Hdv as <-.
        split; [vm_compute; reflexivity|]. intros Hneg. vm_compute in Hneg. discriminate.
    - vm_compute. reflexivity. }
  split; [exact Hacc|]. split; [vm_compute; reflexivity|].
  pose proof (slacks_and_multipliers_positive _ _ _ _ _ _ _ _ _ _ Hacc) as (_ & Hz & _ & Hpos & _).
  split; [exact Hz | exact Hpos].
Defined.

(** The accuracy that C2 asks of the roundings is needed: on finite vectors
    whose ratio underflows, the step rule of binary64 leaves a negative
    component. *)
Lemma positivity_lost_by_underflow :
  ∃ alpha w : float,
    step_calculation [1.3e-300%float] [(-1e23)%float] = Ok alpha
    ∧ finite alpha = true
    ∧ vadd [1.3e-300%float] (vscale_r [(-1e23)%float] alpha) = [w]
    ∧ finite w = true
    ∧ PrimFloat.ltb w 0 = true.
Proof.
  eexists. eexists. split; [vm_compute; reflexivity|].
  split; [vm_compute; reflexivity|]. split; [vm_compute; reflexivity|].
  split; vm_compute; reflexivity.
Qed.

Ltac finite_increments :=
  let i := fresh "i" in
  let Hv := fresh "Hv" in
  let Hdv := fresh "Hdv" in
  intros [|i] ? ? Hv Hdv; vm_compute in Hv, Hdv; [|discriminate];
  injection Hdv as <-; vm_compute; reflexivity.

Ltac iterate_finitely Hrun :=
  let Hnext := fresh "Hrun" in
  eassert (Hnext : reachable_finitely (H := scipy_linalg) _ _ _ _ _ _ _ _ _ _);
  [ eapply finitely_step;
    [ exact Hrun
    | vm_compute; reflexivity
    | vm_compute; reflexivity
    | vm_compute; reflexivity
    | finite_increments
    | finite_increments
    | vm_compute; reflexivity ]
  | clear Hrun; rename Hnext into Hrun ].

(** The same in a call: on [qp_switching] every increment [dz] and [dmu] of
    the first nineteen iterations is finite, the ratio [-z[0] / dz[0]] of the
    nineteenth is about 8e-322, where binary64 keeps three digits, and the
    update leaves [z[0]] finite and negative. *)
Lemma positivity_lost_with_finite_increments :
  ∃ st z mu,
    reachable_finitely (H := scipy_linalg) (heap_of [0%float]) 0 1 0 1 qp_switching 19
      0%float 0 st
    ∧ st_iter_counter st = 19%Z
    ∧ st_z st = [z] ∧ finite z = true ∧ PrimFloat.ltb z 0 = true
    ∧ st_mu st = [mu] ∧ finite mu = true.
Proof.
  eassert (Hrun : reachable_finitely (H := scipy_linalg) (heap_of [0%float]) 0 1 0 1
                    qp_switching 19 0%float 0 _).
  { apply finitely_init. vm_compute. reflexivity. }
  do 19 (iterate_finitely Hrun).
  eexists. eexists. eexists. split; [exact Hrun|].
  split; [reflexivity|]. split; [reflexivity|]. split; [vm_compute; reflexivity|].
  split; [vm_compute; reflexivity|]. split; [reflexivity|]. vm_compute. reflexivity.
Qed.

(** C3 fails as stated: on [lp_line] the NaN of the singular system reaches
    [mu @ z], [gamma] is NaN after the first iteration and in the returned
    solution, and [gamma >= tol] does not hold. *)
Lemma gamma_nan_not_above_tol :
  ∃ o,
    interior_point_solver (H0 := scipy_linalg) (heap_of [0%float; 0%float]) 0 2 0 1 lp_line 5
      1e-6%float 0 = Ok o
    ∧ sol_gamma (out_solution o) = PrimFloat.nan
    ∧ PrimFloat.leb 1e-6 (sol_gamma (out_solution o)) = false.
Proof.
  eexists. split; [vm_compute; reflexivity|]. split; reflexivity.
Qed.

Lemma gamma_never_below_tol_witness :
  ∃ o,
    interior_point_solver (H0 := scipy_linalg) (heap_of [3%float]) 0 1 0 1 qp_bound 50
      1e-6%float 0 = Ok o
    ∧ PrimFloat.ltb (sol_gamma (out_solution o)) 1e-6 = false.
Proof.
  eexists.
  match goal with |- ?R ∧ _ => assert (Hcall : R) by (vm_compute; reflexivity) end.
  split; [exact Hcall|].
  exact (proj1 (proj2 (gamma_never_below_tol _ _ _ _ _ _ _ _ _) _ Hcall)).
Defined.

Lemma no_inequality_never_converged_witness :
  ∃ o,
    interior_point_solver (H0 := scipy_linalg) (heap_of [3%float]) 0 1 1 0 qp_equality 5
      1e-6%float 0 = Ok o
    ∧ out_heap o !! sol_x (out_solution o) = Some [1%float]
    ∧ sol_error (out_solution o) = 0%float
    ∧ sol_gamma (out_solution o) = PrimFloat.nan
    ∧ sol_converged (out_solution o) = false
    ∧ sol_iterations (out_solution o) = 5%Z.
Proof.
  eexists.
  match goal with |- ?R ∧ _ => assert (Hcall : R) by (vm_compute; reflexivity) end.
  split; [exact Hcall|]. split; [reflexivity|]. split; [reflexivity|].
  exact (no_inequality_never_converged _ _ _ _ _ _ _ _ _ _ eq_refl Hcall).
Defined.

Lemma iteration_update_witness :
  ∃ st st',
    reachable (H0 := scipy_linalg) (heap_of [3%float]) 0 1 0 1 qp_bound 50 1e-6%float 0 st
    ∧ iteration (H0 := scipy_linalg) 1 1 qp_bound 1e-6%float 0 st = Ok st'
    ∧ st_x st' = st_x st
    ∧ ∃ dz alpha_p,
        step_calculation (st_z st) dz = Ok alpha_p
        ∧ st_z st' = vadd (st_z st) (vscale_r dz alpha_p).
Proof.
  eexists. eexists.
  match goal with |- ?R ∧ _ => assert (Hreach : R) by (apply reachable_init; vm_compute; reflexivity) end.
  split; [exact Hreach|].
  match goal with |- ?R ∧ _ => assert (Hit : R) by (vm_compute; reflexivity) end.
  split; [exact Hit|].
  destruct (iteration_update _ _ _ _ _ _ _ _ _ _ _ Hreach Hit)
    as (x_arr & sol & dx & dlam & alpha_p & alpha_d & _ & _ & _ & Hp & _ & Hx & _ & Hz & _).
  split; [exact Hx|]. eexists. exists alpha_p. split; [exact Hp | exact Hz].
Defined.


(** C7 fails as stated: on [lp_line] the system of the first iteration is
    singular (the elimination finds no pivot and the solve answers NaN, as
    scipy does), and the call returns a record, with [converged = False]
    after [max_iter] iterations, as a call that has not converged does. *)
Lemma singular_system_returns_a_record :
  ∃ st0 x_arr o,
    init_state (H0 := scipy_linalg) (heap_of [0%float; 0%float]) 0 0 1 5 = Ok st0
    ∧ st_heap st0 !! st_x st0 = Some x_arr
    ∧ (newton_system (H0 := scipy_linalg) lp_line st0 x_arr).1
      = mkDmat 2 2 [[1%float; 1%float]; [1%float; 1%float]]
    ∧ gauss 2 (zip_with (λ r bi, r ++ [bi])
                 (rows (newton_system (H0 := scipy_linalg) lp_line st0 x_arr).1)
                 (newton_system (H0 := scipy_linalg) lp_line st0 x_arr).2) = None
    ∧ interior_point_solver (H0 := scipy_linalg) (heap_of [0%float; 0%float]) 0 2 0 1 lp_line 5
        1e-6%float 0 = Ok o
    ∧ sol_converged (out_solution o) = false
    ∧ sol_iterations (out_solution o) = 5%Z.
Proof.
  eexists. eexists. eexists.
  split; [vm_compute; reflexivity|].
  split; [vm_compute; reflexivity|].
  split; [vm_compute; reflexivity|].
  split; [vm_compute; reflexivity|].
  split; [vm_compute; reflexivity|].
  split; reflexivity.
Qed.

Lemma linear_solve_failure_propagates_witness :
  ∃ st x_arr,
    reachable (H0 := raising_linalg) (heap_of [0%float; 0%float]) 0 2 0 1 lp_line 5
      1e-6%float 0 st
    ∧ st_heap st !! st_x st = Some x_arr
    ∧ spsolve (LinAlg := raising_linalg)
        (newton_system (H0 := raising_linalg) lp_line st x_arr).1
        (newton_system (H0 := raising_linalg) lp_line st x_arr).2 = None
    ∧ interior_point_solver (H0 := raising_linalg) (heap_of [0%float; 0%float]) 0 2 0 1 lp_line 5
        1e-6%float 0 = Err LinAlgError.
Proof.
  eexists. eexists.
  match goal with |- ?R ∧ _ => assert (Hreach : R) by (apply reachable_init; vm_compute; reflexivity) end.
  split; [exact Hreach|].
  match goal with |- ?R ∧ _ => assert (Hx : R) by (vm_compute; reflexivity) end.
  split; [exact Hx|].
  match goal with |- ?R ∧ _ => assert (Hsol : R) by (vm_compute; reflexivity) end.
  split; [exact Hsol|].
  exact (proj1 (linear_solve_failure_propagates _ _ _ _ _ _ _ _ _ _ _ Hreach eq_refl Hx) Hsol).
Defined.

Lemma x0_never_mutated_witness :
  ∃ o,
    interior_point_solver (H0 := scipy_linalg) (heap_of [3%float]) 0 1 0 1 qp_bound 50
      1e-6%float 0 = Ok o
    ∧ out_heap o !! 0%nat = Some [3%float]
    ∧ sol_x (out_solution o) ≠ 0%nat
    ∧ out_heap o !! sol_x (out_solution o) = Some [1.00000049999975%float].
Proof.
  eexists.
  match goal with |- ?R ∧ _ => assert (Hcall : R) by (vm_compute; reflexivity) end.
  split; [exact Hcall|].
  pose proof (x0_never_mutated _ _ _ _ _ _ _ _ _ _ Hcall) as (_ & Hx0 & _ & Hne & _).
  split; [rewrite Hx0; reflexivity|]. split; [exact Hne | reflexivity].
Defined.

(** C10 fails as stated: with [max_iter = -1] the array [error_evolution] is
    empty, the assignment of line 240 raises IndexError, and the return is
    not reached. *)
Lemma negative_max_iter_fails_before_the_loop :
  interior_point_solver (H0 := scipy_linalg) (heap_of [3%float]) 0 1 0 1 qp_bound (-1)
    1e-6%float 0 = Err IndexError
  ∧ interior_point_solver (H0 := scipy_linalg) (heap_of [3%float]) 0 1 0 1 qp_bound (-1)
      1e-6%float 0 ≠ Err UnboundLocalError.
Proof.
  assert (Hcall : interior_point_solver (H0 := scipy_linalg) (heap_of [3%float]) 0 1 0 1
                    qp_bound (-1) 1e-6%float 0 = Err IndexError) by (vm_compute; reflexivity).
  split; [exact Hcall|]. rewrite Hcall. discriminate.
Qed.

Lemma no_iteration_no_solution_witness :
  interior_point_solver (H0 := scipy_linalg) (heap_of [3%float]) 0 1 0 1 qp_bound 0
    1e-6%float 0 = Err UnboundLocalError.
Proof.
  refine (proj1 (proj2 (no_iteration_no_solution (H := scipy_linalg) (heap_of [3%float])
                          0 1 0 1 qp_bound 0 1e-6%float 0) _ _ _ _)).
  - eexists. reflexivity.
  - lia.
  - lia.
  - lia.
Defined.

(** * Further properties of ips.py *)

(** ** split *)

(** X1.  [split(sol, n)] cuts [sol] in two without losing or reordering an
    entry, for every [n].  For [0 <= n <= len(sol)] the first part has [n]
    entries; a larger [n] gives [(sol, [])]; a negative [n] counts from the
    end, and [n <= -len(sol)] gives [([], sol)]. *)
Theorem split_partitions {F : Type} (sol : list F) (n : Z) :
  (split sol n).1 ++ (split sol n).2 = sol
  ∧ ((0 ≤ n ≤ Z.of_nat (length sol))%Z → length (split sol n).1 = Z.to_nat n)
  ∧ ((Z.of_nat (length sol) ≤ n)%Z → split sol n = (sol, []))
  ∧ ((- Z.of_nat (length sol) ≤ n < 0)%Z → length (split sol n).2 = Z.to_nat (- n))
  ∧ ((n ≤ - Z.of_nat (length sol))%Z → split sol n = ([], sol)).
Proof.
  unfold split, slice_bound. cbn [fst snd]. split; [apply take_drop|].
  repeat split.
  - intros Hn. destruct (Z.ltb_spec n 0); [lia|]. rewrite length_take. lia.
  - intros Hn. destruct (Z.ltb_spec n 0); [lia|].
    rewrite take_ge, drop_ge by lia. reflexivity.
  - intros Hn. destruct (Z.ltb_spec n 0); [|lia]. rewrite length_drop. lia.
  - intros Hn. destruct (Z.ltb_spec n 0).
    + replace (Z.to_nat (Z.max (n + Z.of_nat (length sol)) 0)) with O by lia. reflexivity.
    + assert (length sol = O) as Hlen by lia.
      destruct sol; [|discriminate]. rewrite take_nil, drop_nil. reflexivity.
Qed.

(** ** step_calculation *)

Lemma ratios_without_decrease {F : Type} `{Scalar F} (V : list F) :
  ∀ dV : list F,
    (∀ i dv, i < length V → dV !! i = Some dv → f_ltb dv f_zero = false) →
    ratios V dV = [].
Proof.
  induction V as [|v V IH]; intros [|dv dV] Hnone; try reflexivity.
  rewrite ratios_cons_nonneg by (apply (Hnone O dv); [cbn; lia | reflexivity]).
  apply IH. intros i dv' Hi Hdv'. apply (Hnone (S i) dv'); [cbn; lia | exact Hdv'].
Qed.

(** X2.  On binary64, when no component of [dV] under an index of [V] is
    [< 0] (a NaN is not), and in particular for empty vectors,
    [step_calculation] returns 0.9999995: the full step 1.0 is never
    returned. *)
Theorem step_calculation_without_decrease (V dV : list float) :
  length V ≤ length dV →
  (∀ i dv, i < length V → dV !! i = Some dv → PrimFloat.ltb dv 0 = false) →
  step_calculation V dV = Ok 0.9999995%float.
Proof.
  intros Hlen Hnone. rewrite step_calculation_bound by exact Hlen.
  unfold step_bound. rewrite (ratios_without_decrease (H := float_scalar) V dV Hnone). vm_compute. reflexivity.
Qed.

Lemma step_calculation_without_decrease_witness :
  step_calculation [1%float; 2%float] [0.5%float; PrimFloat.nan; (-1)%float]
  = Ok 0.9999995%float.
Proof.
  apply step_calculation_without_decrease; [cbn; lia|].
  intros i dv Hi Hdv. destruct i as [|[|i]]; [| |cbn in Hi; lia];
    cbn in Hdv; injection Hdv as <-; reflexivity.
Defined.

(** ** calc_error *)

(** The two loops of [calc_error] are one loop over the four arrays in a
    row. *)
Lemma calc_error_app {F : Type} `{Scalar F} (dx dz dmu dlmbda : list F) :
  calc_error dx dz dmu dlmbda = calc_error_arr f_zero (dx ++ dz ++ dmu ++ dlmbda).
Proof.
  unfold calc_error, calc_error_arr. cbn [fold_left].
  rewrite !fold_left_app. reflexivity.
Qed.

(** The loop of [calc_error] from a bound that is not NaN: the bound stays
    free of NaN, never decreases, and covers every entry that is not NaN. *)
Lemma calc_error_arr_binary64 (arr : list float) :
  ∀ err : float,
    PrimFloat.is_nan err = false →
    PrimFloat.is_nan (calc_error_arr err arr) = false
    ∧ PrimFloat.leb err (calc_error_arr err arr) = true
    ∧ (∀ a, a ∈ arr → PrimFloat.is_nan a = false →
            PrimFloat.leb (PrimFloat.abs a) (calc_error_arr err arr) = true)
    ∧ (calc_error_arr err arr = err
       ∨ ∃ a, a ∈ arr ∧ PrimFloat.is_nan a = false
              ∧ calc_error_arr err arr = PrimFloat.abs a).
Proof.
  induction arr as [|a arr IH]; intros err Herr.
  - cbn. repeat split; [exact Herr | apply leb_refl, Herr | | left; reflexivity].
    intros a Ha. inversion Ha.
  - change (calc_error_arr err (a :: arr))
      with (calc_error_arr (if PrimFloat.ltb err (PrimFloat.abs a)
                            then PrimFloat.abs a else err) arr).
    destruct (PrimFloat.is_nan a) eqn:Hnan.
    + rewrite ltb_nan_r by (rewrite is_nan_abs; exact Hnan).
      destruct (IH err Herr) as (H1 & H2 & H3 & H4).
      repeat split; try assumption.
      * intros b Hb Hbnan. apply elem_of_cons in Hb as [-> | Hb]; [congruence|].
        apply H3; assumption.
      * destruct H4 as [Heq | (b & Hb & Hbnan & Heq)]; [left; exact Heq|].
        right. exists b. split; [apply list_elem_of_further, Hb | split; assumption].
    + assert (Habs : PrimFloat.is_nan (PrimFloat.abs a) = false)
        by (rewrite is_nan_abs; exact Hnan).
      destruct (PrimFloat.ltb err (PrimFloat.abs a)) eqn:Hlt.
      * destruct (IH (PrimFloat.abs a) Habs) as (H1 & H2 & H3 & H4).
        repeat split; try assumption.
        -- eapply leb_trans; [apply ltb_leb, Hlt | exact H2].
        -- intros b Hb Hbnan. apply elem_of_cons in Hb as [-> | Hb]; [exact H2|].
           apply H3; assumption.
        -- right. destruct H4 as [Heq | (b & Hb & Hbnan & Heq)].
           ++ exists a. split; [apply list_elem_of_here | split; assumption].
           ++ exists b. split; [apply list_elem_of_further, Hb | split; assumption].
      * destruct (IH err Herr) as (H1 & H2 & H3 & H4).
        repeat split; try assumption.
        -- intros b Hb Hbnan. apply elem_of_cons in Hb as [-> | Hb]; [|apply H3; assumption].
           eapply leb_trans; [|exact H2]. apply not_ltb_leb; assumption.
        -- destruct H4 as [Heq | (b & Hb & Hbnan & Heq)]; [left; exact Heq|].
           right. exists b. split; [apply list_elem_of_further, Hb | split; assumption].
Qed.

(** X4.  On binary64 [calc_error] is the largest absolute value among the
    entries of the four arrays that are not NaN, and 0.0 when there is none:
    it is never NaN, it is at least [abs a] for every entry [a] that is not
    NaN, and it is 0.0 or the [abs] of such an entry.  Entries that are NaN
    are skipped, so that increments made of NaN alone have the error 0.0. *)
Theorem calc_error_ignores_nan (dx dz dmu dlmbda : list float) :
  PrimFloat.is_nan (calc_error dx dz dmu dlmbda) = false
  ∧ (∀ a, a ∈ dx ++ dz ++ dmu ++ dlmbda → PrimFloat.is_nan a = false →
          PrimFloat.leb (PrimFloat.abs a) (calc_error dx dz dmu dlmbda) = true)
  ∧ (calc_error dx dz dmu dlmbda = 0%float
     ∨ ∃ a, a ∈ dx ++ dz ++ dmu ++ dlmbda ∧ PrimFloat.is_nan a = false
            ∧ calc_error dx dz dmu dlmbda = PrimFloat.abs a)
  ∧ ((∀ a, a ∈ dx ++ dz ++ dmu ++ dlmbda → PrimFloat.is_nan a = true) →
     calc_error dx dz dmu dlmbda = 0%float).
Proof.
  rewrite calc_error_app.
  destruct (calc_error_arr_binary64 (dx ++ dz ++ dmu ++ dlmbda) 0%float eq_refl)
    as (H1 & _ & H3 & H4).
  change (@f_zero float float_scalar) with 0%float.
  repeat split; try assumption.
  intros Hall. destruct H4 as [Heq | (a & Ha & Hnan & _)]; [exact Heq|].
  rewrite (Hall a Ha) in Hnan. discriminate.
Qed.

(** ** The record that a call returns *)

Section SolverTrace.
Context {F Mat : Type} `{Scalar F} `{LinAlg F Mat}.
Local Open Scope scalar_scope.

Variable h0 : gmap loc (list F).
Variable x0 : loc.
Variables n_x n_eq n_ineq : Z.
Variable func : list F → list F → list F → IpsFunctionReturn F Mat.
Variable max_iter : Z.
Variable tol : F.
Variable verbose : Z.

(** [error_evolution] in the states of a call: the start value in front, the
    current error at [iter_counter], zeros behind. *)
Lemma reachable_error_evolution (st : ips_state F Mat) :
  reachable h0 x0 n_x n_eq n_ineq func max_iter tol verbose st →
  st_error_evolution st !! O = Some f_huge
  ∧ st_error_evolution st !! Z.to_nat (st_iter_counter st) = Some (st_error st)
  ∧ ∀ j : nat, Z.to_nat (st_iter_counter st) < j ≤ Z.to_nat max_iter →
               st_error_evolution st !! j = Some f_zero.
Proof.
  induction 1 as [st Hinit | st st' Hreach (IH0 & IHk & IHz) Htest Hit].
  - apply init_state_Ok in Hinit as (x0_arr & _ & _ & _ & Hmax & ->). cbn.
    assert (Hlen : O < length (replicate (Z.to_nat (max_iter + 1)) (f_zero : F)))
      by (rewrite length_replicate; lia).
    change (Z.to_nat 0) with O. rewrite list_lookup_insert_eq by exact Hlen.
    split; [reflexivity|]. split; [reflexivity|].
    intros j Hj. rewrite list_lookup_insert_ne by lia.
    apply lookup_replicate_2. lia.
  - pose proof (reachable_inv _ _ _ _ _ _ _ _ _ st Hreach) as (Hiter & _ & Hee & _).
    apply iteration_Ok in Hit as (x_arr & sol & alpha_p & alpha_d & _ & _ & _ & _ & Hlen & ->);
      [|lia].
    unfold advance. destruct (increments n_x func st x_arr sol) as [[[dx dlam] dz] dmu].
    cbn [st_error_evolution st_iter_counter st_error].
    split; [|split].
    + rewrite list_lookup_insert_ne by lia. exact IH0.
    + apply list_lookup_insert_eq. lia.
    + intros j Hj. rewrite list_lookup_insert_ne by lia. apply IHz. lia.
Qed.

(** A call passes through one state for each number of iterations. *)
Lemma reachable_unique (a : ips_state F Mat) :
  reachable h0 x0 n_x n_eq n_ineq func max_iter tol verbose a →
  ∀ b : ips_state F Mat,
    reachable h0 x0 n_x n_eq n_ineq func max_iter tol verbose b →
    st_iter_counter a = st_iter_counter b → a = b.
Proof.
  induction 1 as [a Hinit | a a' Hreach IH Htest Hit]; intros b Hb Hcount.
  - symmetry in Hcount.
    assert (Hzero : st_iter_counter a = 0%Z).
    { apply init_state_Ok in Hinit as (x0_arr & _ & _ & _ & _ & ->). reflexivity. }
    rewrite Hzero in Hcount.
    pose proof (reachable_zero _ _ _ _ _ _ _ _ _ b Hb Hcount) as Hinit'.
    congruence.
  - pose proof (reachable_inv _ _ _ _ _ _ _ _ _ a Hreach) as (Hiter & _).
    assert (Hnext : st_iter_counter a' = (st_iter_counter a + 1)%Z).
    { apply iteration_Ok in Hit as (x_arr & sol & alpha_p & alpha_d & _ & _ & _ & _ & _ & ->);
        [|lia].
      unfold advance. destruct (increments n_x func a x_arr sol) as [[[dx dlam] dz] dmu].
      reflexivity. }
    destruct Hb as [b Hinit | b0 b Hb0 Htest0 Hit0].
    + apply init_state_Ok in Hinit as (x0_arr & _ & _ & _ & _ & ->). cbn in Hcount. lia.
    + pose proof (reachable_inv _ _ _ _ _ _ _ _ _ b0 Hb0) as (Hiter0 & _).
      assert (Hnext0 : st_iter_counter b = (st_iter_counter b0 + 1)%Z).
      { apply iteration_Ok in Hit0 as (x_arr & sol & alpha_p & alpha_d & _ & _ & _ & _ & _ & ->);
          [|lia].
        unfold advance. destruct (increments n_x func b0 x_arr sol) as [[[dx dlam] dz] dmu].
        reflexivity. }
      assert (Heq : a = b0) by (apply IH; [exact Hb0 | lia]).
      subst b0. congruence.
Qed.

(** The entries of [error_evolution] that the iterations have written are
    kept: the entry at the [iter_counter] of an earlier state of the call
    is the [error] of that state. *)
Lemma reachable_error_history (st' : ips_state F Mat) :
  reachable h0 x0 n_x n_eq n_ineq func max_iter tol verbose st' →
  ∀ st : ips_state F Mat,
    reachable h0 x0 n_x n_eq n_ineq func max_iter tol verbose st →
    (st_iter_counter st ≤ st_iter_counter st')%Z →
    st_error_evolution st' !! Z.to_nat (st_iter_counter st) = Some (st_error st).
Proof.
  induction 1 as [st' Hinit | st1 st' Hreach1 IH Htest Hit]; intros st Hst Hle.
  - pose proof (reachable_init h0 x0 n_x n_eq n_ineq func max_iter tol verbose st' Hinit)
      as Hreach'.
    pose proof (reachable_inv _ _ _ _ _ _ _ _ _ st Hst) as (Hiter & _).
    assert (Heq : st = st').
    { apply (reachable_unique st Hst st' Hreach').
      apply init_state_Ok in Hinit as (x0_arr & _ & _ & _ & _ & ->). cbn in *. lia. }
    subst st'. apply (reachable_error_evolution st Hst).
  - pose proof (reachable_step _ _ _ _ _ _ _ _ _ st1 st' Hreach1 Htest Hit) as Hreach'.
    pose proof (reachable_inv _ _ _ _ _ _ _ _ _ st1 Hreach1) as (Hiter1 & _).
    pose proof (reachable_inv _ _ _ _ _ _ _ _ _ st Hst) as (Hiter & _).
    destruct (Z.eq_dec (st_iter_counter st) (st_iter_counter st')) as [Heq | Hne].
    + rewrite (reachable_unique st Hst st' Hreach' Heq).
      apply (reachable_error_evolution st' Hreach').
    + apply iteration_Ok in Hit as (x_arr & sol & alpha_p & alpha_d & _ & _ & _ & _ & _ & ->);
        [|lia].
      unfold advance in *. destruct (increments n_x func st1 x_arr sol) as [[[dx dlam] dz] dmu].
      cbn [st_error_evolution st_iter_counter] in *.
      rewrite list_lookup_insert_ne by lia. apply IH; [exact Hst | lia].
Qed.

(** No state of a call has made more iterations than the state in which
    the loop ends. *)
Lemma reachable_before_last (st' : ips_state F Mat) :
  reachable h0 x0 n_x n_eq n_ineq func max_iter tol verbose st' →
  loop_test max_iter st' = false →
  ∀ st : ips_state F Mat,
    reachable h0 x0 n_x n_eq n_ineq func max_iter tol verbose st →
    (st_iter_counter st ≤ st_iter_counter st')%Z.
Proof.
  intros Hreach' Htest'. induction 1 as [st Hinit | st0 st Hreach0 IH Htest Hit].
  - pose proof (reachable_inv _ _ _ _ _ _ _ _ _ st' Hreach') as (Hiter' & _).
    apply init_state_Ok in Hinit as (x0_arr & _ & _ & _ & _ & ->). cbn. lia.
  - pose proof (reachable_inv _ _ _ _ _ _ _ _ _ st0 Hreach0) as (Hiter0 & _).
    assert (Hlt : (st_iter_counter st0 < st_iter_counter st')%Z).
    { destruct (Z.eq_dec (st_iter_counter st0) (st_iter_counter st')) as [Heq | Hne]; [|lia].
      rewrite (reachable_unique st0 Hreach0 st' Hreach' Heq) in Htest. congruence. }
    apply iteration_Ok in Hit as (x_arr & sol & alpha_p & alpha_d & _ & _ & _ & _ & _ & ->);
      [|lia].
    unfold advance. destruct (increments n_x func st0 x_arr sol) as [[[dx dlam] dz] dmu].
    cbn. lia.
Qed.

(** X5.  The [error_evolution] of a returned solution has [max_iter + 1]
    entries.  Entry 0 is the start value 1e20; for every state that the
    call went through, the entry at its [iter_counter] is its [error], so
    that entry [k] is the error of iteration [k], and the entry at
    [iterations] is the returned [error]; the entries behind it are the
    0.0 of [np.zeros], which no iteration has overwritten. *)
Theorem error_evolution_trace (o : outcome F Mat) :
  interior_point_solver h0 x0 n_x n_eq n_ineq func max_iter tol verbose = Ok o →
  length (sol_error_evolution (out_solution o)) = Z.to_nat (max_iter + 1)
  ∧ sol_error_evolution (out_solution o) !! O = Some f_huge
  ∧ (∀ st : ips_state F Mat,
       reachable h0 x0 n_x n_eq n_ineq func max_iter tol verbose st →
       (st_iter_counter st ≤ sol_iterations (out_solution o))%Z
       ∧ sol_error_evolution (out_solution o) !! Z.to_nat (st_iter_counter st)
         = Some (st_error st))
  ∧ sol_error_evolution (out_solution o) !! Z.to_nat (sol_iterations (out_solution o))
    = Some (sol_error (out_solution o))
  ∧ ∀ j : nat, Z.to_nat (sol_iterations (out_solution o)) < j ≤ Z.to_nat max_iter →
               sol_error_evolution (out_solution o) !! j = Some f_zero.
Proof.
  intros Hcall.
  apply interior_point_solver_Ok in Hcall as (st' & x_arr & ret & Hreach & Htest & _ & _ & ->).
  pose proof (reachable_inv _ _ _ _ _ _ _ _ _ st' Hreach) as (_ & _ & Hee & _).
  pose proof (reachable_error_evolution st' Hreach) as (H0e & Hk & Hz).
  cbn [out_solution sol_error_evolution sol_iterations sol_error].
  split; [exact Hee|]. split; [exact H0e|]. split; [|split; [exact Hk | exact Hz]].
  intros st Hst.
  pose proof (reachable_before_last st' Hreach Htest st Hst) as Hle.
  split; [exact Hle | exact (reachable_error_history st' Hreach st Hst Hle)].
Qed.

(** The state before the last iteration of a state that is not the
    first. *)
Lemma reachable_predecessor (st' : ips_state F Mat) :
  reachable h0 x0 n_x n_eq n_ineq func max_iter tol verbose st' →
  (0 < st_iter_counter st')%Z →
  ∃ st x_arr sol alpha_p alpha_d,
    reachable h0 x0 n_x n_eq n_ineq func max_iter tol verbose st
    ∧ loop_test max_iter st = true
    ∧ st_heap st !! st_x st = Some x_arr
    ∧ spsolve (newton_system func st x_arr).1 (newton_system func st x_arr).2 = Some sol
    ∧ step_calculation (st_z st) (increments n_x func st x_arr sol).1.2 = Ok alpha_p
    ∧ step_calculation (st_mu st) (increments n_x func st x_arr sol).2 = Ok alpha_d
    ∧ st' = advance n_x n_ineq func tol verbose st x_arr sol alpha_p alpha_d.
Proof.
  intros Hreach. destruct Hreach as [st Hinit | st st' Hreach Htest Hit].
  - apply init_state_Ok in Hinit as (x0_arr & _ & _ & _ & _ & ->). cbn. lia.
  - intros _. pose proof (reachable_inv _ _ _ _ _ _ _ _ _ st Hreach) as (Hiter & _).
    apply iteration_Ok in Hit as (x_arr & sol & alpha_p & alpha_d & Hx & Hsol & Hp & Hd & _ & ->);
      [|lia].
    exists st, x_arr, sol, alpha_p, alpha_d. repeat split; assumption.
Qed.

(** X6.  The [structs] of a returned solution are not evaluated at the
    returned point: they are what [func] gave at the [x], [mu] and [lam]
    with which the last iteration began, and the returned [x] and [lam] are
    those values moved by the last step.  After a single iteration
    [structs] is [func] at the contents of [x0] with [mu] and [lam] all
    ones. *)
Theorem structs_precede_last_update (o : outcome F Mat) :
  interior_point_solver h0 x0 n_x n_eq n_ineq func max_iter tol verbose = Ok o →
  ∃ st x_arr dx dlam alpha_p alpha_d,
    reachable h0 x0 n_x n_eq n_ineq func max_iter tol verbose st
    ∧ (st_iter_counter st + 1)%Z = sol_iterations (out_solution o)
    ∧ st_heap st !! st_x st = Some x_arr
    ∧ sol_structs (out_solution o) = func x_arr (st_mu st) (st_lam st)
    ∧ out_heap o !! sol_x (out_solution o) = Some (vadd x_arr (vscale_r dx alpha_p))
    ∧ sol_lam (out_solution o) = vadd (st_lam st) (vscale_r dlam alpha_d)
    ∧ (sol_iterations (out_solution o) = 1%Z →
       ∃ x0_arr,
         h0 !! x0 = Some x0_arr
         ∧ sol_structs (out_solution o)
           = func x0_arr (replicate (Z.to_nat n_ineq) f_one) (replicate (Z.to_nat n_eq) f_one)).
Proof.
  intros Hcall.
  apply interior_point_solver_Ok in Hcall as (st' & x_arr' & ret & Hreach' & _ & Hx' & Hret & ->).
  pose proof (reachable_inv _ _ _ _ _ _ _ _ _ st' Hreach') as
    (Hiter' & _ & _ & _ & _ & _ & _ & _ & _ & _ & _ & Hret0 & _).
  assert (Hpos : (0 < st_iter_counter st')%Z).
  { destruct (Z.eq_dec (st_iter_counter st') 0%Z) as [Hz|]; [|lia].
    rewrite (Hret0 Hz) in Hret. discriminate. }
  destruct (reachable_predecessor st' Hreach' Hpos)
    as (st & x_arr & sol & alpha_p & alpha_d & Hreach & _ & Hx & _ & _ & _ & Hadv).
  exists st, x_arr, (increments n_x func st x_arr sol).1.1.1,
    (increments n_x func st x_arr sol).1.1.2, alpha_p, alpha_d.
  subst st'. unfold advance in *.
  destruct (increments n_x func st x_arr sol) as [[[dx dlam] dz] dmu].
  cbn in *. rewrite lookup_insert_eq in Hx'. injection Hx' as <-. injection Hret as <-.
  rewrite lookup_insert_eq.
  repeat split; try assumption; try reflexivity.
  intros Hone. assert (Hzero : st_iter_counter st = 0%Z) by lia.
  pose proof (reachable_zero _ _ _ _ _ _ _ _ _ st Hreach Hzero) as Hinit.
  apply init_state_Ok in Hinit as (x0_arr & Hx0 & _ & _ & _ & ->).
  cbn in *. rewrite lookup_insert_eq in Hx. injection Hx as <-.
  exists x0_arr. split; [exact Hx0 | reflexivity].
Qed.

(** The variable [f] keeps its first value, and the iterations print no
    objective. *)
Lemma reachable_f (st : ips_state F Mat) :
  reachable h0 x0 n_x n_eq n_ineq func max_iter tol verbose st →
  st_f st = f_zero ∧ ∀ f : F, PrintFobj f ∉ st_stdout st.
Proof.
  induction 1 as [st Hinit | st st' Hreach [IHf IHout] Htest Hit].
  - apply init_state_Ok in Hinit as (x0_arr & _ & _ & _ & _ & ->). cbn.
    split; [reflexivity|]. intros f Hf. inversion Hf.
  - pose proof (reachable_inv _ _ _ _ _ _ _ _ _ st Hreach) as (Hiter & _).
    apply iteration_Ok in Hit as (x_arr & sol & alpha_p & alpha_d & _ & _ & _ & _ & _ & ->);
      [|lia].
    unfold advance. destruct (increments n_x func st x_arr sol) as [[[dx dlam] dz] dmu].
    cbn [st_f st_stdout]. split; [exact IHf|].
    intros f Hf. apply elem_of_app in Hf as [Hf | Hf]; [exact (IHout f Hf)|].
    unfold print_iteration in Hf.
    destruct (1 <? verbose)%Z; [|inversion Hf].
    destruct (2 <? verbose)%Z; cbn in Hf;
      repeat (apply elem_of_cons in Hf as [Hf | Hf]; [discriminate|]); inversion Hf.
Qed.

(** X7.  The objective that the summary prints is not the objective at the
    solution: [f] is set to 0.0 at the start and never assigned again, so
    with [verbose > 0] the line [F.obj] shows 0.0 whatever [func] returns,
    and no other line shows an objective. *)
Theorem printed_objective_is_zero (o : outcome F Mat) :
  interior_point_solver h0 x0 n_x n_eq n_ineq func max_iter tol verbose = Ok o →
  ((0 < verbose)%Z → PrintFobj f_zero ∈ out_stdout o)
  ∧ ∀ f : F, PrintFobj f ∈ out_stdout o → f = f_zero.
Proof.
  intros Hcall.
  apply interior_point_solver_Ok in Hcall as (st & x_arr & ret & Hreach & _ & _ & _ & ->).
  destruct (reachable_f st Hreach) as [Hf Hout]. cbn [out_stdout]. unfold print_solution.
  split.
  - intros Hv. apply Z.ltb_lt in Hv. rewrite Hv, Hf.
    apply elem_of_app. right. do 3 apply list_elem_of_further. apply list_elem_of_here.
  - intros f Hin. apply elem_of_app in Hin as [Hin | Hin]; [destruct (Hout f Hin)|].
    destruct (0 <? verbose)%Z; [|inversion Hin].
    repeat (apply elem_of_cons in Hin as [Hin | Hin];
            [try discriminate; injection Hin as ->; exact Hf|]).
    inversion Hin.
Qed.

(** What the iterations so far have printed. *)
Lemma reachable_stdout_length (st : ips_state F Mat) :
  reachable h0 x0 n_x n_eq n_ineq func max_iter tol verbose st →
  length (st_stdout st)
  = (Z.to_nat (st_iter_counter st)
     * (if (1 <? verbose)%Z then if (2 <? verbose)%Z then 4 else 3 else 0))%nat.
Proof.
  induction 1 as [st Hinit | st st' Hreach IH Htest Hit].
  - apply init_state_Ok in Hinit as (x0_arr & _ & _ & _ & _ & ->). reflexivity.
  - pose proof (reachable_inv _ _ _ _ _ _ _ _ _ st Hreach) as (Hiter & _).
    apply iteration_Ok in Hit as (x_arr & sol & alpha_p & alpha_d & _ & _ & _ & _ & _ & ->);
      [|lia].
    unfold advance. destruct (increments n_x func st x_arr sol) as [[[dx dlam] dz] dmu].
    cbn [st_stdout st_iter_counter]. rewrite length_app, IH.
    replace (Z.to_nat (st_iter_counter st + 1)) with (S (Z.to_nat (st_iter_counter st))) by lia.
    unfold print_iteration. destruct (1 <? verbose)%Z; [destruct (2 <? verbose)%Z|]; cbn; lia.
Qed.

(** X8.  What a call that returns prints is fixed by [verbose] and by the
    number of iterations: nothing for [verbose <= 0]; the 7 lines of the
    summary for [verbose = 1]; 3 more lines for each iteration for
    [verbose = 2], and 4 (the data frames being counted as one) for
    [verbose >= 3]. *)
Theorem printed_lines_by_verbosity (o : outcome F Mat) :
  interior_point_solver h0 x0 n_x n_eq n_ineq func max_iter tol verbose = Ok o →
  length (out_stdout o)
  = (Z.to_nat (sol_iterations (out_solution o))
     * (if (1 <? verbose)%Z then if (2 <? verbose)%Z then 4 else 3 else 0)
     + (if (0 <? verbose)%Z then 7 else 0))%nat
  ∧ ((verbose ≤ 0)%Z → out_stdout o = []).
Proof.
  intros Hcall.
  apply interior_point_solver_Ok in Hcall as (st & x_arr & ret & Hreach & _ & _ & _ & ->).
  pose proof (reachable_stdout_length st Hreach) as Hlen.
  cbn [out_stdout out_solution sol_iterations]. rewrite length_app, Hlen.
  unfold print_solution. split.
  - destruct (0 <? verbose)%Z; reflexivity.
  - intros Hv. destruct (Z.ltb_spec 0 verbose); [lia|].
    destruct (Z.ltb_spec 1 verbose); [lia|].
    rewrite Nat.mul_0_r in Hlen. apply nil_length_inv in Hlen. rewrite Hlen. reflexivity.
Qed.

(** X9.  A negative [n_eq] or [n_ineq] is refused by [np.ones] with a
    ValueError, before [func] is called and before the loop. *)
Theorem negative_dimension_raises :
  is_Some (h0 !! x0) → (n_eq < 0 ∨ n_ineq < 0)%Z →
  interior_point_solver h0 x0 n_x n_eq n_ineq func max_iter tol verbose = Err ValueError.
Proof.
  intros [x0_arr Hx0] Hneg.
  unfold interior_point_solver, init_state, deref, np_ones. rewrite Hx0. cbn [or_raise].
  rewrite bind_ret_l.
  destruct (Z.ltb_spec n_eq 0); [reflexivity|].
  destruct (Z.ltb_spec n_ineq 0); [reflexivity | lia].
Qed.

End SolverTrace.

Lemma error_evolution_trace_witness :
  ∃ o,
    interior_point_solver (H0 := scipy_linalg) (heap_of [3%float]) 0 1 0 1 qp_bound 5
      1e-6%float 0 = Ok o
    ∧ sol_iterations (out_solution o) = 3%Z
    ∧ length (sol_error_evolution (out_solution o)) = 6%nat
    ∧ sol_error_evolution (out_solution o) !! 3%nat = Some (sol_error (out_solution o))
    ∧ sol_error_evolution (out_solution o) !! 4%nat = Some 0%float.
Proof.
  eexists.
  match goal with |- ?R ∧ _ => assert (Hcall : R) by (vm_compute; reflexivity) end.
  split; [exact Hcall|]. split; [reflexivity|].
  destruct (error_evolution_trace _ _ _ _ _ _ _ _ _ _ Hcall) as (Hlen & _ & _ & Hk & Hz).
  split; [exact Hlen|]. split; [exact Hk|]. apply Hz. cbn. lia.
Defined.

Lemma structs_precede_last_update_witness :
  ∃ o,
    interior_point_solver (H0 := scipy_linalg) (heap_of [3%float]) 0 1 0 1 qp_bound 1
      1e-6%float 0 = Ok o
    ∧ sol_iterations (out_solution o) = 1%Z
    ∧ sol_structs (out_solution o) = qp_bound [3%float] [1%float] [1%float]
    ∧ out_heap o !! sol_x (out_solution o) ≠ Some [3%float].
Proof.
  eexists.
  match goal with |- ?R ∧ _ => assert (Hcall : R) by (vm_compute; reflexivity) end.
  split; [exact Hcall|]. split; [reflexivity|].
  destruct (structs_precede_last_update _ _ _ _ _ _ _ _ _ _ Hcall)
    as (st & x_arr & dx & dlam & alpha_p & alpha_d & _ & _ & _ & _ & _ & _ & Hfirst).
  destruct (Hfirst eq_refl) as (x0_arr & Hx0 & Hstructs).
  split.
  - rewrite Hstructs. vm_compute in Hx0. injection Hx0 as <-. reflexivity.
  - vm_compute. intros Heq. inversion Heq.
Defined.

Lemma printed_objective_is_zero_witness :
  ∃ o,
    interior_point_solver (H0 := scipy_linalg) (heap_of [3%float]) 0 1 0 1 qp_bound 5
      1e-6%float 1 = Ok o
    ∧ r_f (sol_structs (out_solution o)) ≠ 0%float
    ∧ PrintFobj 0%float ∈ out_stdout o.
Proof.
  eexists.
  match goal with |- ?R ∧ _ => assert (Hcall : R) by (vm_compute; reflexivity) end.
  split; [exact Hcall|]. split; [vm_compute; intros Heq; inversion Heq|].
  apply (proj1 (printed_objective_is_zero _ _ _ _ _ _ _ _ _ _ Hcall)). lia.
Defined.

Lemma printed_lines_by_verbosity_witness :
  ∃ o,
    interior_point_solver (H0 := scipy_linalg) (heap_of [3%float]) 0 1 0 1 qp_bound 5
      1e-6%float 3 = Ok o
    ∧ sol_iterations (out_solution o) = 3%Z
    ∧ length (out_stdout o) = 19%nat.
Proof.
  eexists.
  match goal with |- ?R ∧ _ => assert (Hcall : R) by (vm_compute; reflexivity) end.
  split; [exact Hcall|]. split; [reflexivity|].
  exact (proj1 (printed_lines_by_verbosity _ _ _ _ _ _ _ _ _ _ Hcall)).
Defined.

Lemma negative_dimension_raises_witness :
  interior_point_solver (H0 := scipy_linalg) (heap_of [3%float]) 0 1 (-1) 1 qp_bound 5
    1e-6%float 0 = Err ValueError.
Proof.
  apply (negative_dimension_raises (H0 := scipy_linalg)).
  - eexists. reflexivity.
  - lia.
Defined.

(** ** Convergence *)

Section Binary64Convergence.
Context {Mat : Type} `{LinAlg float Mat}.

Variable h0 : gmap loc (list float).
Variable x0 : loc.
Variables n_x n_eq n_ineq : Z.
Variable func : list float → list float → list float → IpsFunctionReturn float Mat.
Variable max_iter : Z.
Variable tol : float.
Variable verbose : Z.

(** X10.  On binary64, a solution returned with [converged = True] comes
    from a last iteration whose increments [dx], [dz], [dmu] and [dlam] are
    all within the returned [gamma] in absolute value, the entries that are
    NaN apart: those are not seen by the test. *)
Theorem converged_bounds_increments (o : outcome float Mat) :
  interior_point_solver h0 x0 n_x n_eq n_ineq func max_iter tol verbose = Ok o →
  sol_converged (out_solution o) = true →
  ∃ st x_arr sol,
    reachable h0 x0 n_x n_eq n_ineq func max_iter tol verbose st
    ∧ (st_iter_counter st + 1)%Z = sol_iterations (out_solution o)
    ∧ st_heap st !! st_x st = Some x_arr
    ∧ spsolve (newton_system func st x_arr).1 (newton_system func st x_arr).2 = Some sol
    ∧ ∀ a : float,
        a ∈ (increments n_x func st x_arr sol).1.1.1 ++ (increments n_x func st x_arr sol).1.2
            ++ (increments n_x func st x_arr sol).2 ++ (increments n_x func st x_arr sol).1.1.2 →
        PrimFloat.is_nan a = false →
        PrimFloat.leb (PrimFloat.abs a) (sol_gamma (out_solution o)) = true.
Proof.
  intros Hcall Hconv.
  apply interior_point_solver_Ok in Hcall as (st' & x_arr' & ret & Hreach' & _ & _ & Hret & ->).
  cbn [out_solution sol_converged sol_gamma sol_iterations] in *.
  pose proof (reachable_inv _ _ _ _ _ _ _ _ _ st' Hreach') as
    (_ & _ & _ & _ & _ & _ & _ & _ & _ & _ & _ & Hret0 & _ & Hdef & _).
  rewrite Hdef in Hconv.
  assert (Hpos : (0 < st_iter_counter st')%Z).
  { pose proof (reachable_inv _ _ _ _ _ _ _ _ _ st' Hreach') as (Hiter' & _).
    destruct (Z.eq_dec (st_iter_counter st') 0%Z) as [Hz|]; [|lia].
    rewrite (Hret0 Hz) in Hret. discriminate. }
  destruct (reachable_predecessor _ _ _ _ _ _ _ _ _ st' Hreach' Hpos)
    as (st & x_arr & sol & alpha_p & alpha_d & Hreach & _ & Hx & Hsol & _ & _ & Hadv).
  exists st, x_arr, sol.
  assert (Herr : st_error st'
                 = calc_error (increments n_x func st x_arr sol).1.1.1
                     (increments n_x func st x_arr sol).1.2
                     (increments n_x func st x_arr sol).2
                     (increments n_x func st x_arr sol).1.1.2
                 ∧ st_iter_counter st' = (st_iter_counter st + 1)%Z).
  { rewrite Hadv. unfold advance.
    destruct (increments n_x func st x_arr sol) as [[[dx dlam] dz] dmu]. split; reflexivity. }
  destruct Herr as [Herr Hcount].
  split; [exact Hreach|]. split; [symmetry; exact Hcount|].
  split; [exact Hx|]. split; [exact Hsol|].
  intros a Ha Hnan. rewrite Herr, calc_error_app in Hconv.
  match type of Hconv with
  | (calc_error_arr _ ?l <=? _)%S = true =>
      destruct (calc_error_arr_binary64 l 0%float eq_refl) as (_ & _ & Hbound & _)
  end.
  eapply leb_trans; [apply Hbound; assumption | exact Hconv].
Qed.

End Binary64Convergence.

Lemma converged_bounds_increments_witness :
  ∃ o,
    interior_point_solver (H0 := scipy_linalg) (heap_of [3%float]) 0 1 0 1 qp_bound 5
      1e-6%float 0 = Ok o
    ∧ sol_converged (out_solution o) = true
    ∧ ∃ st x_arr sol,
        reachable (H0 := scipy_linalg) (heap_of [3%float]) 0 1 0 1 qp_bound 5 1e-6%float 0 st
        ∧ st_heap st !! st_x st = Some x_arr
        ∧ ∀ a : float,
            a ∈ (increments (H0 := scipy_linalg) 1 qp_bound st x_arr sol).1.1.1 →
            PrimFloat.is_nan a = false →
            PrimFloat.leb (PrimFloat.abs a) (sol_gamma (out_solution o)) = true.
Proof.
  eexists.
  match goal with |- ?R ∧ _ => assert (Hcall : R) by (vm_compute; reflexivity) end.
  split; [exact Hcall|]. split; [reflexivity|].
  destruct (converged_bounds_increments _ _ _ _ _ _ _ _ _ _ Hcall eq_refl)
    as (st & x_arr & sol & Hreach & _ & Hx & _ & Hall).
  exists st, x_arr, sol. split; [exact Hreach|]. split; [exact Hx|].
  intros a Ha. apply Hall. apply elem_of_app. left. exact Ha.
Defined.

(** ** IpsFunctionReturn.compare *)

Section CompareFacts.
Context {F Mat Arr : Type} `{Scalar F} `{Numpy F Mat Arr}.

(** The loop of [compare] over entries with distinct names, the two entries
    of a pair being sparse together: it raises nothing, and each name ends
    bound to the difference of its pair, or as it was when the pair is
    close. *)
Lemma compare_loop (h : F) (items : list (value F Mat Arr * value F Mat Arr * string)) :
  NoDup (snd <$> items) →
  Forall (λ it, isspmatrix (fst (fst it)) = isspmatrix (snd (fst it))) items →
  ∀ errors : gmap string (value F Mat Arr),
    ∃ errors',
      foldM (compare_item h) errors items = Ok errors'
      ∧ (∀ k a b name, items !! k = Some (a, b, name) →
           errors' !! name
           = if allclose (operand a) (operand b) (f_mul h (f_of_int 10))
             then errors !! name else Some (subtract (operand a) (operand b)))
      ∧ (∀ name, name ∉ snd <$> items → errors' !! name = errors !! name).
Proof.
  induction items as [|[[a b] name] items IH]; intros Hnodup Hsparse errors.
  - exists errors. split; [reflexivity|]. split; [|reflexivity].
    intros k a b name Hk. discriminate.
  - cbn [fmap list_fmap snd] in Hnodup. apply NoDup_cons in Hnodup as [Hname Hnodup].
    apply Forall_cons in Hsparse as [Hab Hsparse]. cbn [fst snd] in Hab.
    assert (Hitem : compare_item h errors (a, b, name)
                    = Ok (if allclose (operand a) (operand b) (f_mul h (f_of_int 10))
                          then errors
                          else <[name := subtract (operand a) (operand b)]> errors)).
    { unfold compare_item. destruct a, b; try discriminate; cbn;
        destruct (allclose _ _ _); reflexivity. }
    destruct (IH Hnodup Hsparse
                (if allclose (operand a) (operand b) (f_mul h (f_of_int 10))
                 then errors
                 else <[name := subtract (operand a) (operand b)]> errors))
      as (errors' & Hfold & Hin & Hout).
    exists errors'. cbn [foldM]. rewrite Hitem, bind_ret_l.
    split; [exact Hfold|]. split.
    + intros [|k] a' b' name' Hk.
      * injection Hk as <- <- <-. rewrite (Hout name Hname).
        destruct (allclose _ _ _); [reflexivity | apply lookup_insert_eq].
      * cbn in Hk. rewrite (Hin k a' b' name' Hk).
        assert (Hne : name ≠ name').
        { intros <-. apply Hname. apply list_elem_of_fmap. exists (a', b', name).
          split; [reflexivity|]. eapply list_elem_of_lookup_2, Hk. }
        destruct (allclose (operand a') _ _); [|reflexivity].
        destruct (allclose (operand a) _ _); [reflexivity|].
        apply lookup_insert_ne, Hne.
    + intros name' Hnot. cbn [fmap list_fmap snd] in Hnot.
      apply not_elem_of_cons in Hnot as [Hne Hnot].
      rewrite (Hout name' Hnot).
      destruct (allclose _ _ _); [reflexivity|]. apply lookup_insert_ne. congruence.
Qed.

(** X12.  [compare] raises nothing on two records, and the dictionary it
    returns binds the name of a field of [get_headers] exactly when
    [np.allclose], with [atol = h * 10], rejects the two values of that
    field, to their difference; no other key is bound ([S], [Sf] and [St]
    are not compared).  So the dictionary is empty exactly when all of the
    nine fields are close. *)
Theorem compare_reports_differing_fields (self other : IpsFunctionReturn F Mat) (h : F) :
  ∃ errors : gmap string (value F Mat Arr),
    compare self other h = Ok errors
    ∧ (∀ k name a b,
         get_headers !! k = Some name →
         get_data self !! k = Some a → get_data other !! k = Some b →
         errors !! name
         = if allclose (operand a) (operand b) (f_mul h (f_of_int 10))
           then None else Some (subtract (operand a) (operand b)))
    ∧ (∀ name, name ∉ get_headers → errors !! name = None)
    ∧ (errors = ∅
       ↔ ∀ k a b, get_data self !! k = Some a → get_data other !! k = Some b →
                  allclose (operand a) (operand b) (f_mul h (f_of_int 10)) = true).
Proof.
  set (items := zip (zip (get_data (Arr := Arr) self) (get_data (Arr := Arr) other)) get_headers).
  assert (Hnames : snd <$> items = get_headers) by reflexivity.
  assert (Hnodup : NoDup (snd <$> items)).
  { rewrite Hnames. apply (bool_decide_unpack _). vm_compute. exact I. }
  assert (Hsparse : Forall (λ it, isspmatrix (fst (fst it)) = isspmatrix (snd (fst it))) items)
    by (repeat constructor).
  destruct (compare_loop h items Hnodup Hsparse ∅) as (errors & Hfold & Hin & Hout).
  assert (Hitem : ∀ k name a b,
             get_headers !! k = Some name →
             get_data self !! k = Some a → get_data other !! k = Some b →
             items !! k = Some (a, b, name)).
  { intros k name a b Hname Ha Hb. unfold items.
    apply lookup_zip_with_Some. exists (a, b), name. split; [reflexivity|].
    split; [|exact Hname]. apply lookup_zip_with_Some. exists a, b. auto. }
  assert (Hfield : ∀ k name a b,
             get_headers !! k = Some name →
             get_data self !! k = Some a → get_data other !! k = Some b →
             errors !! name
             = if allclose (operand a) (operand b) (f_mul h (f_of_int 10))
               then None else Some (subtract (operand a) (operand b))).
  { intros k name a b Hname Ha Hb.
    rewrite (Hin k a b name (Hitem k name a b Hname Ha Hb)), lookup_empty. reflexivity. }
  assert (Hother : ∀ name, name ∉ get_headers → errors !! name = None).
  { intros name Hnot. rewrite Hout by (rewrite Hnames; exact Hnot). apply lookup_empty. }
  exists errors. split; [exact Hfold|]. split; [exact Hfield|]. split; [exact Hother|].
  split.
  - intros -> k a b Ha Hb.
    assert (Hk : k < length (@get_headers)) by (apply lookup_lt_Some in Ha; exact Ha).
    apply lookup_lt_is_Some_2 in Hk as [name Hname].
    pose proof (Hfield k name a b Hname Ha Hb) as Hlook. rewrite lookup_empty in Hlook.
    destruct (allclose _ _ _); [reflexivity | discriminate].
  - intros Hall. apply map_empty. intros name.
    destruct (decide (name ∈ get_headers)) as [Hin' | Hnot]; [|apply Hother, Hnot].
    apply list_elem_of_lookup_1 in Hin' as [k Hname].
    assert (Hk : k < 9) by (apply lookup_lt_Some in Hname; exact Hname).
    destruct (lookup_lt_is_Some_2 (get_data (Arr := Arr) self) k Hk) as [a Ha].
    destruct (lookup_lt_is_Some_2 (get_data (Arr := Arr) other) k Hk) as [b Hb].
    rewrite (Hfield k name a b Hname Ha Hb), (Hall k a b Ha Hb). reflexivity.
Qed.

End CompareFacts.

(** ** step_calculation on binary64 *)

(** X13.  On binary64, whatever [V] and [dV] hold (NaN and infinities
    included), the step that [step_calculation] returns is not NaN and is
    not above 1.0: a ratio [-V[i] / dV[i]] that is NaN is passed over by
    [min]. *)
Theorem step_calculation_never_nan (V dV : list float) :
  length V ≤ length dV →
  ∃ alpha : float,
    step_calculation V dV = Ok alpha
    ∧ PrimFloat.is_nan alpha = false
    ∧ PrimFloat.leb alpha 1 = true.
Proof.
  intros Hlen. rewrite (step_calculation_bound V dV Hlen). eexists. split; [reflexivity|].
  pose proof (fold_py_min_not_nan (ratios V dV) 1%float eq_refl) as Hsb.
  change (fold_left py_min (ratios V dV) 1%float) with (step_bound V dV) in Hsb.
  assert (Hmul : PrimFloat.is_nan (PrimFloat.mul 0.9999995 (step_bound V dV)) = false).
  { eapply mul_finite_not_nan; [vm_compute; reflexivity | exact Hsb]. }
  unfold py_min. cbn [f_ltb f_mul f_safety f_one float_scalar].
  destruct (PrimFloat.ltb 1 (PrimFloat.mul 0.9999995 (step_bound V dV))) eqn:Hlt.
  - split; reflexivity.
  - split; [exact Hmul|]. apply not_ltb_leb; [reflexivity | exact Hmul | exact Hlt].
Qed.

Lemma step_calculation_never_nan_witness :
  ∃ alpha : float,
    step_calculation [PrimFloat.nan; 1%float] [(-1)%float; PrimFloat.neg_infinity] = Ok alpha
    ∧ PrimFloat.is_nan alpha = false
    ∧ PrimFloat.leb alpha 1 = true.
Proof.
  apply step_calculation_never_nan. cbn. lia.
Defined.
